(** * Interval collections (package [interval], file intervals.go)

    A shallow embedding of the interval-set engine: the collection record,
    the lazy sort, the gap walk, the envelope-based overlap walk, the
    membership scan and the text renderer, followed by the properties the
    specification states about them.

    Modelling conventions.
    - Go's [int] is the 64-bit two's-complement integer.  A value is a [Z]
      in [[min_int, max_int]]; every arithmetic operation of the source is
      written with its wrap-around ([add], [sub]).
    - A [*Interval] is modelled by its value.  intervals.go never writes
      through such a pointer, and the collection is the single owner of
      the intervals added to it.
    - A method with a pointer receiver takes the collection and returns the
      collection it leaves behind, next to its result.
    - [sort.Sort] belongs to Go's standard library.  The development is
      parametric in it, under the contract its documentation gives: the
      result is a rearrangement of the slice, in ascending order for
      [Less]; nothing is promised about elements that compare equal. *)

From Stdlib Require Import ZArith List Bool Lia Permutation Sorted.
From Stdlib Require Import Ascii String DecimalString.
Import ListNotations.

Local Open Scope Z_scope.

(** ** Go's [int] *)

Module GoInt.

Definition max_int : Z := 9223372036854775807.   (* math.MaxInt64 *)
Definition min_int : Z := -9223372036854775808.  (* math.MinInt64 *)

(** Reduction of an exact result to the 64-bit signed range. *)
Definition wrap (z : Z) : Z :=
  (z + 9223372036854775808) mod 18446744073709551616 - 9223372036854775808.

Definition add (x y : Z) : Z := wrap (x + y).
Definition sub (x y : Z) : Z := wrap (x - y).

Definition in_range (z : Z) : Prop := min_int <= z <= max_int.

(** [fmt]'s [%d] (and [%v]) of an [int]: decimal digits, with a leading
    minus sign for a negative value. *)
Definition itoa (z : Z) : string :=
  DecimalString.NilZero.string_of_int (Z.to_int z).

End GoInt.
Import GoInt.

(** ** Intervals and the helpers of interval.go *)

(** Modelled from the spec: the [Interval] struct is declared in a file that
    is not part of the sources at hand; section 3 gives it as the pair of
    inclusive bounds [{low, high}], and intervals.go reads and writes the
    fields [Low] and [High]. *)
Record Interval : Type := mkInterval { Low : Z; High : Z }.

(** Modelled from the spec: [inBetweenInclusive(value, low, high)] is
    declared outside intervals.go; section 4.5 gives its meaning,
    [low <= value <= high] with both ends included. *)
Definition inBetweenInclusive (value low high : Z) : bool :=
  (low <=? value) && (value <=? high).

(** Modelled from the spec: [min] and [max] on [int], used by section 4.4
    for the intersection with the envelope. *)
Definition min (a b : Z) : Z := if a <? b then a else b.
Definition max (a b : Z) : Z := if a >? b then a else b.

(** Modelled from the spec: [ByLow] is the [sort.Interface] view of a slice
    of intervals; its [Less] compares the low bounds only (section 2, and
    the comment on [Sort] in the interface). *)
Definition ByLow_Less (a b : Interval) : bool := Low a <? Low b.

(** Ascending order for [ByLow]: no element is [Less] than an earlier one. *)
Definition low_le (a b : Interval) : Prop := Low a <= Low b.
Definition ascending (l : list Interval) : Prop := StronglySorted low_le l.

Definition ascendingb_head (a : Interval) (l : list Interval) : bool :=
  forallb (fun b => Low a <=? Low b) l.

Fixpoint ascendingb (l : list Interval) : bool :=
  match l with
  | [] => true
  | a :: l' => ascendingb_head a l' && ascendingb l'
  end.

(** The contract of [sort.Sort] on a [ByLow] slice. *)
Record sort_contract (srt : list Interval -> list Interval) : Prop := {
  sort_perm : forall l, Permutation l (srt l);
  sort_ascending : forall l, ascending (srt l)
}.

(** ** Insertion sort

    [sort.Sort] runs [insertionSort] on a slice of fewer than seven
    elements in every release of the Go library (the quicksort of the
    older releases adds a shell pass from seven elements on, pdqsort
    switches at twelve):
<<
    for i := a + 1; i < b; i++ {
        for j := i; j > a && data.Less(j, j-1); j-- {
            data.Swap(j, j-1)
        }
    }
>>
    The prefix already handled is kept in reverse, so that the element
    walking down meets its predecessors in the order of the inner loop. *)

Fixpoint sink (x : Interval) (rprefix : list Interval) : list Interval :=
  match rprefix with
  | [] => [x]
  | y :: rest => if ByLow_Less x y then y :: sink x rest else x :: rprefix
  end.

Definition insertionSort (l : list Interval) : list Interval :=
  rev (fold_left (fun rprefix x => sink x rprefix) l []).

(** ** The collection *)

Record intervals : Type := mkIntervals {
  Intervals : list Interval;
  MinLow : Z;
  MaxHigh : Z;
  Sorted : bool
}.

Definition defaultMinLow : Z := 0.
Definition defaultMaxHigh : Z := max_int.

Definition NewIntervals (minLow maxHigh : Z) : intervals :=
  {| MinLow := minLow; MaxHigh := maxHigh; Intervals := []; Sorted := false |}.

Definition NewIntervalsDefault : intervals :=
  NewIntervals defaultMinLow defaultMaxHigh.

Definition Add (intvls : intervals) (itvl : Interval) : intervals :=
  {| Intervals := Intervals intvls ++ [itvl];
     MinLow := MinLow intvls;
     MaxHigh := MaxHigh intvls;
     Sorted := false |}.

(** The range loop of [FindIntervalsForValue], with [matches] as it grows. *)
Fixpoint FindIntervalsForValue_loop (value : Z) (l matches : list Interval)
  : list Interval :=
  match l with
  | [] => matches
  | intvl :: l' =>
      FindIntervalsForValue_loop value l'
        (if inBetweenInclusive value (Low intvl) (High intvl)
         then matches ++ [intvl] else matches)
  end.

Definition FindIntervalsForValue (intvls : intervals) (value : Z)
  : list Interval * intervals :=
  (FindIntervalsForValue_loop value (Intervals intvls) [], intvls).

(** The range loop of [Gaps]: the cursor [lastHigh] and [gaps] as it grows. *)
Fixpoint Gaps_loop (l : list Interval) (lastHigh : Z) (gaps : list Interval)
  : Z * list Interval :=
  match l with
  | [] => (lastHigh, gaps)
  | intvl :: l' =>
      Gaps_loop l' (add (High intvl) 1)
        (if Low intvl >? lastHigh
         then gaps ++ [mkInterval lastHigh (sub (Low intvl) 1)]
         else gaps)
  end.

(** The state of the range loop of [Overlapped]. *)
Record envelope : Type := mkEnvelope {
  list_ : list Interval;
  lastMinLow : Z;
  lastMaxHigh : Z
}.

Definition Overlapped_init : envelope :=
  {| list_ := []; lastMinLow := max_int; lastMaxHigh := min_int |}.

Definition Overlapped_body (i : nat) (intvl : Interval) (e : envelope)
  : envelope :=
  let list1 :=
    if (0 <? i)%nat then
      let lowInBetween :=
        inBetweenInclusive (lastMinLow e) (Low intvl) (High intvl)
        || inBetweenInclusive (Low intvl) (lastMinLow e) (lastMaxHigh e) in
      let highInBetween :=
        inBetweenInclusive (lastMaxHigh e) (Low intvl) (High intvl)
        || inBetweenInclusive (High intvl) (lastMinLow e) (lastMaxHigh e) in
      if lowInBetween || highInBetween then
        let greaterLow := max (Low intvl) (lastMinLow e) in
        let lowerHigh := min (High intvl) (lastMaxHigh e) in
        list_ e ++ [mkInterval greaterLow lowerHigh]
      else list_ e
    else list_ e in
  {| list_ := list1;
     lastMinLow :=
       if Low intvl <? lastMinLow e then Low intvl else lastMinLow e;
     lastMaxHigh :=
       if High intvl >? lastMaxHigh e then High intvl else lastMaxHigh e |}.

Fixpoint Overlapped_loop (i : nat) (l : list Interval) (e : envelope)
  : envelope :=
  match l with
  | [] => e
  | intvl :: l' => Overlapped_loop (S i) l' (Overlapped_body i intvl e)
  end.

Definition isAnOverlap (value : Z) (overlapped : list Interval) : bool :=
  existsb (fun ovrlp => inBetweenInclusive value (Low ovrlp) (High ovrlp))
    overlapped.

(** ** Counted loops

    [for i := a; i < b; i++ { body }], for a body that assigns neither [i]
    nor [b]: the body runs for [i = a], [a+1], ..., [b-1], that is
    [b - a] times when [a < b] and not at all otherwise; [i] stays below
    [b], so [i++] never wraps. *)

Fixpoint for_iter {S : Type} (n : nat) (i : Z) (body : Z -> S -> S) (s : S)
  : S :=
  match n with
  | O => s
  | Datatypes.S n' => for_iter n' (i + 1) body (body i s)
  end.

Definition for_lt {S : Type} (a b : Z) (body : Z -> S -> S) (s : S) : S :=
  for_iter (Z.to_nat (b - a)) a body s.

(** [for i := a; i <= b; i++ { body }]: as above up to [b] included, unless
    [b] is [math.MaxInt64]: then [i <= b] holds of every [int], [i++]
    wraps, and the loop has no exit ([None]). *)
Definition for_le {S : Type} (a b : Z) (body : Z -> S -> S) (s : S)
  : option S :=
  if a <=? b then
    if b =? max_int then None else Some (for_lt a (b + 1) body s)
  else Some s.

(** ** The renderer's pieces *)

Local Open Scope string_scope.

Definition nl : string := String (ascii_of_nat 10) EmptyString.

Definition emptySymbol : string := "◌".
Definition fullSymbol : string := "◎".
Definition overlapSymbol : string := "●".
Definition separator : string := "║".
Definition blockSize : Z := 10.

Definition rule : string := "==================================".

(** [fmt.Sprintf("[%d,%d]", low, high)] *)
Definition fmt_interval (i : Interval) : string :=
  "[" ++ itoa (Low i) ++ "," ++ itoa (High i) ++ "]".

(** The three listing loops: [", "] before every element but the first. *)
Definition list_text_body (i : nat) (x : Interval) (text : string) : string :=
  (if (i =? 0)%nat then text else text ++ ", ") ++ fmt_interval x.

Fixpoint list_text_loop (i : nat) (l : list Interval) (text : string)
  : string :=
  match l with
  | [] => text
  | x :: l' => list_text_loop (S i) l' (list_text_body i x text)
  end.

(** The variables the drawing loops of [Print] share. *)
Record canvas : Type := mkCanvas {
  intervalText : string;
  graph : string;
  index : Z;
  numSeparators : Z
}.

(** Body of [for i := index; i < intvl.Low; i++]. *)
Definition draw_empty (_ : Z) (cv : canvas) : canvas :=
  let index1 := add (index cv) 1 in
  let graph1 := graph cv ++ emptySymbol in
  if (Z.rem index1 10 =? 0)%Z then
    {| intervalText := intervalText cv; graph := graph1 ++ separator;
       index := index1; numSeparators := add (numSeparators cv) 1 |}
  else
    {| intervalText := intervalText cv; graph := graph1;
       index := index1; numSeparators := numSeparators cv |}.

(** Body of [for i := index; i <= intvl.High; i++]. *)
Definition draw_full (overlapped : list Interval) (_ : Z) (cv : canvas)
  : canvas :=
  let graph1 :=
    if isAnOverlap (index cv) overlapped
    then graph cv ++ overlapSymbol else graph cv ++ fullSymbol in
  let index1 := add (index cv) 1 in
  if (Z.rem index1 blockSize =? 0)%Z then
    {| intervalText := intervalText cv; graph := graph1 ++ separator;
       index := index1; numSeparators := add (numSeparators cv) 1 |}
  else
    {| intervalText := intervalText cv; graph := graph1;
       index := index1; numSeparators := numSeparators cv |}.

(** Body of the range loop of [Print] over the intervals. *)
Definition Print_body (overlapped : list Interval) (i : nat)
  (intvl : Interval) (cv : canvas) : option canvas :=
  let cv1 :=
    {| intervalText := list_text_body i intvl (intervalText cv);
       graph := graph cv; index := index cv;
       numSeparators := numSeparators cv |} in
  let cv2 := for_lt (index cv1) (Low intvl) draw_empty cv1 in
  for_le (index cv2) (High intvl) (draw_full overlapped) cv2.

Fixpoint Print_loop (overlapped : list Interval) (i : nat)
  (l : list Interval) (cv : canvas) : option canvas :=
  match l with
  | [] => Some cv
  | intvl :: l' =>
      match Print_body overlapped i intvl cv with
      | Some cv' => Print_loop overlapped (S i) l' cv'
      | None => None
      end
  end.

(** The strings [Print] builds before it joins them. *)
Record parts : Type := mkParts {
  introText : string;
  legend : string;
  intervalsPart : string;
  gapsText : string;
  overlapText : string;
  axisLegend : string;
  graphPart : string
}.

Definition graphText (p : parts) : string :=
  nl ++ nl ++ axisLegend p ++ nl ++ "╠" ++ graphPart p ++ "╣".

(** The [return] of [Print]. *)
Definition assemble (p : parts) : string :=
  nl ++ introText p ++ legend p ++ intervalsPart p ++ gapsText p
     ++ overlapText p ++ graphText p ++ nl.

Local Close Scope string_scope.

(** ** The methods that sort *)

Section Methods.

(** [sort.Sort(ByLow(...))] *)
Variable sort_Sort : list Interval -> list Interval.

Definition Sort (intvls : intervals) : intervals :=
  {| Intervals :=
       if negb (Sorted intvls) then sort_Sort (Intervals intvls)
       else Intervals intvls;
     MinLow := MinLow intvls;
     MaxHigh := MaxHigh intvls;
     Sorted := true |}.

(** The cursor of [Gaps] when its range loop ends. *)
Definition Gaps_cursor (intvls : intervals) : Z :=
  let intvls1 := Sort intvls in
  fst (Gaps_loop (Intervals intvls1) (MinLow intvls1) []).

Definition Gaps (intvls : intervals) : list Interval * intervals :=
  let intvls1 := Sort intvls in
  let '(lastHigh, gaps) :=
    Gaps_loop (Intervals intvls1) (MinLow intvls1) [] in
  (if lastHigh <? MaxHigh intvls1
   then gaps ++ [mkInterval lastHigh (MaxHigh intvls1)]
   else gaps,
   intvls1).

Definition Overlapped (intvls : intervals) : list Interval * intervals :=
  let intvls1 := Sort intvls in
  (list_ (Overlapped_loop 0 (Intervals intvls1) Overlapped_init), intvls1).

Local Open Scope string_scope.

Definition Print_parts (intvls : intervals) : option (parts * intervals) :=
  let intvls1 := Sort intvls in
  let introText :=
    nl ++ rule ++ nl ++ " SUMMARY (minLow=" ++ itoa (MinLow intvls1)
       ++ ", maxHigh=" ++ itoa (MaxHigh intvls1) ++ ")" ++ nl ++ rule in
  let legend :=
    nl ++ " • Legend: " ++ emptySymbol ++ " (empty), " ++ fullSymbol
       ++ " (full), " ++ overlapSymbol ++ " (overlap)" in
  let '(overlapped, intvls2) := Overlapped intvls1 in
  let overlapText :=
    list_text_loop 0 overlapped (nl ++ " • Overlapped: ") in
  match
    Print_loop overlapped 0 (Intervals intvls2)
      {| intervalText := nl ++ " • Intervals: "; graph := "";
         index := MinLow intvls2; numSeparators := 0 |}
  with
  | None => None
  | Some cv =>
      let '(gaps, intvls3) := Gaps intvls2 in
      let gapsText := list_text_loop 0 gaps (nl ++ " • Gaps: ") in
      let graph1 :=
        for_lt (index cv) (MaxHigh intvls3)
          (fun _ g => g ++ emptySymbol) (graph cv) in
      let axisLegend0 := " " ++ itoa (MinLow intvls3) in
      let axisLegend1 :=
        for_lt (MinLow intvls3)
          (sub (add (MaxHigh intvls3) (numSeparators cv)) 2)
          (fun _ a => a ++ " ") axisLegend0 in
      let axisLegend2 := axisLegend1 ++ itoa (MaxHigh intvls3) in
      Some ({| introText := introText; legend := legend;
               intervalsPart := intervalText cv; gapsText := gapsText;
               overlapText := overlapText; axisLegend := axisLegend2;
               graphPart := graph1 |}, intvls3)
  end.

(** [Print] returns a text, or does not return ([None]). *)
Definition Print (intvls : intervals) : option (string * intervals) :=
  match Print_parts intvls with
  | Some (p, intvls') => Some (assemble p, intvls')
  | None => None
  end.

Local Close Scope string_scope.

(** Collections a client of the interface can hold: built by the
    constructor and changed by the methods only (the struct is not
    exported). *)
Inductive reachable : intervals -> Prop :=
| reach_NewIntervals minLow maxHigh :
    reachable (NewIntervals minLow maxHigh)
| reach_Add c itvl :
    reachable c -> reachable (Add c itvl)
| reach_FindIntervalsForValue c value :
    reachable c -> reachable (snd (FindIntervalsForValue c value))
| reach_Sort c :
    reachable c -> reachable (Sort c)
| reach_Gaps c :
    reachable c -> reachable (snd (Gaps c))
| reach_Overlapped c :
    reachable c -> reachable (snd (Overlapped c))
| reach_Print c text c' :
    reachable c -> Print c = Some (text, c') -> reachable c'.

End Methods.

(** A collection filled by successive calls of [Add]. *)
Definition build (minLow maxHigh : Z) (l : list Interval) : intervals :=
  fold_left Add l (NewIntervals minLow maxHigh).

(** The collection of the end-to-end scenario of section 8. *)
Definition scenario : intervals :=
  build 0 40 [mkInterval 5 10; mkInterval 8 15; mkInterval 30 35].

(** ** Vocabulary of the properties *)

(** The flag tells the truth. *)
Definition sorted_flag_ok (c : intervals) : Prop :=
  Sorted c = true -> ascending (Intervals c).

Definition well_formed (i : Interval) : Prop := Low i <= High i.

(** [x] lies in the closed range of [i]. *)
Definition covers (x : Z) (i : Interval) : bool :=
  (Low i <=? x) && (x <=? High i).

(** Number of intervals of [l] that [x] lies in. *)
Definition coverage (x : Z) (l : list Interval) : nat :=
  List.length (filter (covers x) l).

(** Two intervals share no point and neither lies inside the other: one
    ends before the other begins. *)
Definition apart (a b : Interval) : Prop :=
  High a < Low b \/ High b < Low a.

Definition pairwise_apart (l : list Interval) : Prop :=
  ForallOrdPairs apart l.

(** The reversed prefix of the insertion sort: low bounds going down. *)
Definition descending (l : list Interval) : Prop :=
  StronglySorted (fun a b => Low b <= Low a) l.

(** Each interval ends before the next one begins. *)
Definition chain (l : list Interval) : Prop :=
  StronglySorted (fun a b => High a < Low b) l.

(** Bounds a Go program can hold, low not above high, and room for the
    [High + 1] of the gap walk. *)
Definition gap_safe (i : Interval) : Prop :=
  min_int <= Low i /\ Low i <= High i /\ High i < max_int.

(** [ps] occur in [s] one after the other, in this order and without
    sharing a character. *)
Fixpoint ordered_parts (ps : list string) (s : string) : Prop :=
  match ps with
  | [] => True
  | p :: ps' =>
      exists pre rest : string,
        s = (pre ++ p ++ rest)%string /\ ordered_parts ps' rest
  end.

(** [r] when [s] is [p] followed by [r]. *)
Fixpoint strip_prefix (p s : string) : option string :=
  match p, s with
  | EmptyString, _ => Some s
  | String a p', String b s' =>
      if Ascii.eqb a b then strip_prefix p' s' else None
  | String _ _, EmptyString => None
  end.

(** Decides [ordered_parts]: every place of a part is tried. *)
Fixpoint ordered_partsb (ps : list string) : string -> bool :=
  match ps with
  | [] => fun _ => true
  | p :: ps' =>
      fix search (s : string) : bool :=
        match strip_prefix p s with
        | Some rest => ordered_partsb ps' rest
        | None => false
        end
        || match s with
           | EmptyString => false
           | String _ s' => search s'
           end
  end.

(** The line of the graph, between its two frame characters. *)
Definition graph_line (p : parts) : string :=
  ("╠" ++ graphPart p ++ "╣")%string.

(** The order of section 4.6: the graph, then the axis. *)
Definition spec_order (p : parts) : list string :=
  [introText p; legend p; intervalsPart p; gapsText p; overlapText p;
   graph_line p; axisLegend p].

(** The order of the [return] of [Print]: the axis, then the graph. *)
Definition code_order (p : parts) : list string :=
  [introText p; legend p; intervalsPart p; gapsText p; overlapText p;
   axisLegend p; graph_line p].

(** [", "]-separated listing, as the three loops of [Print] build it. *)
Definition listing (title : string) (l : list Interval) : string :=
  list_text_loop 0 l title.

(** Both bounds are values of Go's [int]. *)
Definition int_bounds (i : Interval) : Prop :=
  in_range (Low i) /\ in_range (High i).

(** [o] lies inside [i]. *)
Definition inside (o i : Interval) : Prop :=
  Low i <= Low o /\ High o <= High i.

(** The envelope after the intervals [P], the first of them included:
    it spans them, and both its ends are ends of intervals of [P]. *)
Definition envelope_of (P : list Interval) (e : envelope) : Prop :=
  (forall p, In p P -> lastMinLow e <= Low p /\ High p <= lastMaxHigh e)
  /\ (exists j, In j P /\ lastMaxHigh e = High j)
  /\ (exists j, In j P /\ lastMinLow e = Low j).

(** [n] copies of [s], one after the other. *)
Fixpoint replicate (n : nat) (s : string) : string :=
  match n with
  | O => EmptyString
  | S n' => (s ++ replicate n' s)%string
  end.

(** The header and the legend of the text of [Print]. *)
Definition header_text (minLow maxHigh : Z) : string :=
  (nl ++ rule ++ nl ++ " SUMMARY (minLow=" ++ itoa minLow ++ ", maxHigh="
      ++ itoa maxHigh ++ ")" ++ nl ++ rule)%string.

Definition legend_text : string :=
  (nl ++ " • Legend: ◌ (empty), ◎ (full), ● (overlap)")%string.

(** The axis line: [minLow] on the left, [maxHigh] on the right, [pad]
    spaces between them. *)
Definition axis_text (minLow maxHigh : Z) (pad : nat) : string :=
  (" " ++ itoa minLow ++ replicate pad " " ++ itoa maxHigh)%string.

(** The symbol of the unit [u] of the axis: empty when no item holds
    [u]; otherwise the overlap symbol when [u] lies in an overlap, and
    the full symbol when it does not. *)
Definition unit_symbol (items overlapped : list Interval) (u : Z) : string :=
  if (coverage u items =? 0)%nat then emptySymbol
  else if isAnOverlap u overlapped then overlapSymbol
  else fullSymbol.

(** One unit of the graph: its symbol, and the separator after it when
    the next unit starts a block of ten. *)
Definition cell (sym : Z -> string) (u : Z) : string :=
  (sym u ++ (if (Z.rem (u + 1) 10 =? 0)%Z then separator else ""))%string.

(** The cells of the [n] units from [u] on. *)
Fixpoint cells (sym : Z -> string) (n : nat) (u : Z) : string :=
  match n with
  | O => EmptyString
  | S n' => (cell sym u ++ cells sym n' (u + 1))%string
  end.

(** The number of separators among these cells. *)
Fixpoint separators (n : nat) (u : Z) : Z :=
  match n with
  | O => 0
  | S n' => (if Z.rem (u + 1) 10 =? 0 then 1 else 0) + separators n' (u + 1)
  end.

(** One past the last unit that the drawing loops reach: each interval
    moves the index up to its low bound, then past its high bound. *)
Definition drawn_end (items : list Interval) (minLow : Z) : Z :=
  fold_left (fun i a => Z.max (Z.max i (Low a)) (High a + 1)) items minLow.

(** The step the two drawing loops share: the symbol of the unit under
    the index, the index moved on, a separator at a block boundary. *)
Definition draw (sym : Z -> string) (cv : canvas) : canvas :=
  let index1 := add (index cv) 1 in
  if Z.rem index1 10 =? 0 then
    {| intervalText := intervalText cv;
       graph := (graph cv ++ sym (index cv) ++ separator)%string;
       index := index1; numSeparators := add (numSeparators cv) 1 |}
  else
    {| intervalText := intervalText cv;
       graph := (graph cv ++ sym (index cv))%string;
       index := index1; numSeparators := numSeparators cv |}.

(** The symbol of a unit inside an interval, as the second loop picks
    it. *)
Definition full_symbol (overlapped : list Interval) (u : Z) : string :=
  if isAnOverlap u overlapped then overlapSymbol else fullSymbol.

(** * Facts *)

(** ** Arithmetic of [int] *)

Lemma wrap_small z : in_range z -> wrap z = z.
Proof.
  unfold in_range, min_int, max_int, wrap. intros H.
  rewrite Z.mod_small; lia.
Qed.

Lemma add_1_small z : min_int <= z < max_int -> add z 1 = z + 1.
Proof.
  intros H. unfold add. apply wrap_small. unfold in_range. lia.
Qed.

Lemma sub_1_small z : min_int < z <= max_int -> sub z 1 = z - 1.
Proof.
  intros H. unfold sub. apply wrap_small. unfold in_range. lia.
Qed.

(** ** Sorting *)

Lemma ascending_inv a l :
  ascending (a :: l) -> ascending l /\ Forall (low_le a) l.
Proof. apply StronglySorted_inv. Qed.

Lemma ascendingb_sound l : ascendingb l = true -> ascending l.
Proof.
  induction l as [|a l IH]; simpl; intros H.
  - constructor.
  - apply andb_true_iff in H. destruct H as [Hh Ht].
    constructor; [exact (IH Ht)|].
    unfold ascendingb_head in Hh. rewrite forallb_forall in Hh.
    apply Forall_forall. intros b Hb. apply Z.leb_le. auto.
Qed.

(** Where equal low bounds mean equal intervals, the ascending
    arrangement is unique. *)
Lemma ascending_perm_unique l1 :
  forall l2,
    Permutation l1 l2 -> ascending l1 -> ascending l2 ->
    (forall a b, In a l1 -> In b l1 -> Low a = Low b -> a = b) ->
    l1 = l2.
Proof.
  induction l1 as [|a l1 IH]; intros l2 HP H1 H2 Hinj.
  - apply Permutation_nil in HP. now subst.
  - destruct l2 as [|b l2].
    + apply Permutation_sym, Permutation_nil in HP. discriminate.
    + apply ascending_inv in H1. destruct H1 as [H1 Ha].
      apply ascending_inv in H2. destruct H2 as [H2 Hb].
      assert (Hba : In b (a :: l1)).
      { eapply Permutation_in; [apply Permutation_sym, HP | left; reflexivity]. }
      assert (Hab : In a (b :: l2)).
      { eapply Permutation_in; [apply HP | left; reflexivity]. }
      assert (Hle1 : Low a <= Low b).
      { destruct Hba as [->|Hin]; [lia|].
        rewrite Forall_forall in Ha. apply Ha, Hin. }
      assert (Hle2 : Low b <= Low a).
      { destruct Hab as [->|Hin]; [lia|].
        rewrite Forall_forall in Hb. apply Hb, Hin. }
      assert (a = b) as <-.
      { apply Hinj; [left; reflexivity | exact Hba | lia]. }
      f_equal. apply IH; [| assumption | assumption |].
      * eapply Permutation_cons_inv, HP.
      * intros x y Hx Hy. apply Hinj; right; assumption.
Qed.

Lemma sink_perm x r : Permutation (x :: r) (sink x r).
Proof.
  induction r as [|y r IH]; simpl.
  - apply Permutation_refl.
  - destruct (ByLow_Less x y).
    + eapply Permutation_trans; [apply perm_swap|]. now apply perm_skip.
    + apply Permutation_refl.
Qed.

Lemma sink_descending x r : descending r -> descending (sink x r).
Proof.
  unfold descending.
  induction r as [|y r IH]; simpl; intros H.
  - repeat constructor.
  - apply StronglySorted_inv in H. destruct H as [Hr Hy].
    unfold ByLow_Less. destruct (Low x <? Low y) eqn:E.
    + apply Z.ltb_lt in E. constructor; [exact (IH Hr)|].
      eapply Permutation_Forall; [apply sink_perm|].
      constructor; [lia | exact Hy].
    + apply Z.ltb_ge in E. constructor.
      * constructor; assumption.
      * constructor; [exact E|].
        eapply Forall_impl; [|exact Hy]. simpl. intros; lia.
Qed.

Lemma descending_rev l : descending l -> ascending (rev l).
Proof.
  unfold descending, ascending.
  induction l as [|a l IH]; simpl; intros H.
  - constructor.
  - apply StronglySorted_inv in H. destruct H as [Hl Ha].
    specialize (IH Hl). clear Hl.
    assert (Hr : Forall (fun b => low_le b a) (rev l)).
    { apply Forall_forall. intros b Hb. apply in_rev in Hb.
      rewrite Forall_forall in Ha. apply Ha, Hb. }
    induction (rev l) as [|b m IHm]; simpl.
    + repeat constructor.
    + apply StronglySorted_inv in IH. destruct IH as [Hm Hb].
      inversion Hr; subst.
      constructor; [exact (IHm Hm H2)|].
      apply Forall_app. split; [exact Hb | repeat constructor; assumption].
Qed.

Lemma insertion_fold l :
  forall r,
    descending r ->
    let r' := fold_left (fun rprefix x => sink x rprefix) l r in
    descending r' /\ Permutation (rev r ++ l) (rev r').
Proof.
  induction l as [|x l IH]; simpl; intros r Hr.
  - split; [exact Hr | rewrite app_nil_r; apply Permutation_refl].
  - destruct (IH (sink x r) (sink_descending x r Hr)) as [Hd HP].
    split; [exact Hd|].
    eapply Permutation_trans; [|exact HP].
    change (x :: l) with ([x] ++ l). rewrite app_assoc.
    apply Permutation_app_tail.
    eapply Permutation_trans;
      [| apply Permutation_rev with (l := sink x r)].
    eapply Permutation_trans; [| apply sink_perm].
    eapply Permutation_trans; [apply Permutation_app_comm|].
    simpl. apply perm_skip. apply Permutation_sym, Permutation_rev.
Qed.

Lemma insertionSort_contract : sort_contract insertionSort.
Proof.
  split; intros l; unfold insertionSort;
    destruct (insertion_fold l []) as [Hd HP];
    try (repeat constructor).
  - exact HP.
  - now apply descending_rev.
Qed.

Lemma distinct_lows_inj l :
  NoDup (map Low l) ->
  forall a b, In a l -> In b l -> Low a = Low b -> a = b.
Proof.
  induction l as [|x l IH]; simpl; intros HN a b Ha Hb E; [contradiction|].
  inversion HN as [|? ? Hx HN']; subst.
  destruct Ha as [->|Ha], Hb as [->|Hb]; auto.
  - exfalso. apply Hx. rewrite E. now apply in_map.
  - exfalso. apply Hx. rewrite <- E. now apply in_map.
Qed.

(** ** The envelope walk *)

Lemma Overlapped_body_ordered i intvl e :
  well_formed intvl ->
  lastMinLow (Overlapped_body i intvl e)
  <= lastMaxHigh (Overlapped_body i intvl e).
Proof.
  unfold well_formed, Overlapped_body. simpl. intros H.
  rewrite Z.gtb_ltb.
  destruct (Z.ltb_spec (Low intvl) (lastMinLow e));
    destruct (Z.ltb_spec (lastMaxHigh e) (High intvl)); lia.
Qed.

Lemma Overlapped_body_well_formed i intvl e :
  well_formed intvl ->
  (i = 0%nat \/ lastMinLow e <= lastMaxHigh e) ->
  Forall well_formed (list_ e) ->
  Forall well_formed (list_ (Overlapped_body i intvl e)).
Proof.
  unfold well_formed at 1. intros Hw Hi He.
  unfold Overlapped_body. simpl.
  destruct i as [|i]; simpl; [exact He|].
  destruct Hi as [Hi|Hi]; [discriminate|].
  match goal with |- Forall _ (if ?c then _ else _) => destruct c eqn:E end;
    [|exact He].
  apply Forall_app. split; [exact He|].
  constructor; [|constructor].
  unfold well_formed, inBetweenInclusive, max, min in *. simpl.
  rewrite !orb_true_iff, !andb_true_iff, !Z.leb_le in E.
  rewrite Z.gtb_ltb.
  destruct (Z.ltb_spec (lastMinLow e) (Low intvl));
    destruct (Z.ltb_spec (High intvl) (lastMaxHigh e)); lia.
Qed.

Lemma Overlapped_loop_well_formed l :
  forall i e,
    Forall well_formed l ->
    (i = 0%nat \/ lastMinLow e <= lastMaxHigh e) ->
    Forall well_formed (list_ e) ->
    Forall well_formed (list_ (Overlapped_loop i l e)).
Proof.
  induction l as [|intvl l IH]; simpl; intros i e Hl Hi He; [exact He|].
  inversion Hl; subst.
  apply IH.
  - assumption.
  - right. now apply Overlapped_body_ordered.
  - now apply Overlapped_body_well_formed.
Qed.

(** ** The membership scan *)

Lemma FindIntervalsForValue_loop_filter value l :
  forall matches,
    FindIntervalsForValue_loop value l matches
    = matches ++ filter (covers value) l.
Proof.
  induction l as [|i l IH]; simpl; intros matches.
  - now rewrite app_nil_r.
  - rewrite IH. unfold covers at 2, inBetweenInclusive.
    destruct ((Low i <=? value) && (value <=? High i)).
    + now rewrite <- app_assoc.
    + reflexivity.
Qed.

(** ** The collection and its flag *)

Section Properties.

Variable srt : list Interval -> list Interval.

Lemma Sort_Sorted c : Sorted (Sort srt c) = true.
Proof. reflexivity. Qed.

Lemma Sort_idempotent c : Sort srt (Sort srt c) = Sort srt c.
Proof. reflexivity. Qed.

Lemma Sort_bounds c :
  MinLow (Sort srt c) = MinLow c /\ MaxHigh (Sort srt c) = MaxHigh c.
Proof. split; reflexivity. Qed.

Lemma Gaps_state c : snd (Gaps srt c) = Sort srt c.
Proof.
  unfold Gaps.
  destruct (Gaps_loop (Intervals (Sort srt c)) (MinLow (Sort srt c)) []).
  reflexivity.
Qed.

Lemma Overlapped_state c : snd (Overlapped srt c) = Sort srt c.
Proof. reflexivity. Qed.

Lemma Print_parts_state c p c' :
  Print_parts srt c = Some (p, c') -> c' = Sort srt c.
Proof.
  unfold Print_parts.
  pose proof (Gaps_state (snd (Overlapped srt (Sort srt c)))) as HG.
  destruct (Overlapped srt (Sort srt c)) as [ov c2] eqn:EO.
  assert (c2 = Sort srt c) as ->.
  { change c2 with (snd (ov, c2)). rewrite <- EO. reflexivity. }
  simpl in HG.
  destruct (Print_loop ov 0 (Intervals (Sort srt c)) _); [|discriminate].
  destruct (Gaps srt (Sort srt c)) as [gaps c3].
  simpl in HG. subst c3. intros H. now inversion H.
Qed.

Lemma Print_state c text c' :
  Print srt c = Some (text, c') -> c' = Sort srt c.
Proof.
  unfold Print.
  destruct (Print_parts srt c) as [[p c'']|] eqn:E; [|discriminate].
  intros H. inversion H; subst. eapply Print_parts_state, E.
Qed.

Hypothesis srt_ok : sort_contract srt.

Lemma Sort_perm c : Permutation (Intervals c) (Intervals (Sort srt c)).
Proof.
  unfold Sort. simpl. destruct (Sorted c); simpl.
  - apply Permutation_refl.
  - apply (sort_perm srt srt_ok).
Qed.

Lemma Sort_ascending c :
  sorted_flag_ok c -> ascending (Intervals (Sort srt c)).
Proof.
  unfold sorted_flag_ok, Sort. simpl. destruct (Sorted c); simpl.
  - auto.
  - intros _. apply (sort_ascending srt srt_ok).
Qed.

Lemma reachable_flag_ok c : reachable srt c -> sorted_flag_ok c.
Proof.
  induction 1 as [lo hi | c i _ _ | c v _ IH | c _ IH | c _ IH | c _ IH
                 | c text c' _ IH HP].
  - intros H. discriminate.
  - intros H. discriminate.
  - exact IH.
  - intros _. now apply Sort_ascending.
  - rewrite Gaps_state. intros _. now apply Sort_ascending.
  - rewrite Overlapped_state. intros _. now apply Sort_ascending.
  - apply Print_state in HP. subst c'. intros _. now apply Sort_ascending.
Qed.

(** An ascending slice with distinct low bounds is left as it is. *)
Lemma sort_fixes l :
  ascending l -> NoDup (map Low l) -> srt l = l.
Proof.
  intros Ha Hn. symmetry. apply ascending_perm_unique.
  - apply (sort_perm srt srt_ok).
  - exact Ha.
  - apply (sort_ascending srt srt_ok).
  - now apply distinct_lows_inj.
Qed.

End Properties.

(** ** The gap walk *)

Lemma coverage_app x l1 l2 :
  coverage x (l1 ++ l2) = (coverage x l1 + coverage x l2)%nat.
Proof. unfold coverage. now rewrite filter_app, length_app. Qed.

Lemma coverage_cons x i l :
  coverage x (i :: l) = ((if covers x i then 1 else 0) + coverage x l)%nat.
Proof. unfold coverage. simpl. now destruct (covers x i). Qed.

Lemma coverage_none x l :
  Forall (fun i => covers x i = false) l -> coverage x l = 0%nat.
Proof.
  induction 1 as [|i l Hi _ IH]; [reflexivity|].
  rewrite coverage_cons, Hi, IH. reflexivity.
Qed.

Lemma covers_iff x i : covers x i = true <-> Low i <= x <= High i.
Proof. unfold covers. rewrite andb_true_iff, !Z.leb_le. tauto. Qed.

Lemma covers_false_iff x i : covers x i = false <-> x < Low i \/ High i < x.
Proof.
  destruct (covers x i) eqn:E.
  - apply covers_iff in E. split; [discriminate | lia].
  - split; [|reflexivity]. intros _.
    destruct (Z.lt_ge_cases x (Low i)); [now left|].
    destruct (Z.lt_ge_cases (High i) x); [now right|].
    assert (covers x i = true) by (apply covers_iff; lia). congruence.
Qed.

(** The gaps found so far play no part in the rest of the walk. *)
Lemma Gaps_loop_acc l :
  forall k acc,
    Gaps_loop l k acc
    = (fst (Gaps_loop l k []), acc ++ snd (Gaps_loop l k [])).
Proof.
  induction l as [|a l IH]; simpl; intros k acc.
  - now rewrite app_nil_r.
  - rewrite IH. rewrite (IH _ (if Low a >? k then _ else _)). simpl.
    f_equal. destruct (Low a >? k); simpl.
    + now rewrite <- app_assoc.
    + reflexivity.
Qed.

(** Over intervals that all end at [m - 1] or later, a walk started at
    [m] or later stays there. *)
Lemma Gaps_loop_lower m l :
  forall k,
    Forall (fun b => High b < max_int /\ min_int <= High b
                     /\ m <= High b + 1) l ->
    m <= k ->
    m <= fst (Gaps_loop l k [])
    /\ Forall (fun g => m <= Low g) (snd (Gaps_loop l k [])).
Proof.
  induction l as [|a l IH]; simpl; intros k Hl Hk.
  - split; [exact Hk | constructor].
  - inversion Hl as [|? ? [Hmax [Hmin Ha]] Hl']; subst.
    rewrite Gaps_loop_acc. simpl.
    rewrite add_1_small by lia.
    destruct (IH (High a + 1) Hl' Ha) as [Hf Hg].
    split; [exact Hf|].
    apply Forall_app. split; [|exact Hg].
    destruct (Low a >? k); repeat constructor. simpl. exact Hk.
Qed.

(** One step of the argument: on a chain, from the cursor on, every
    point is in exactly one of an interval, a gap of the walk, or the
    stretch from the final cursor on. *)
Lemma Gaps_loop_tiles l :
  forall k x,
    chain l -> Forall gap_safe l -> min_int <= k -> k <= x ->
    (coverage x l + coverage x (snd (Gaps_loop l k []))
     + (if (fst (Gaps_loop l k []) <=? x)%Z then 1 else 0))%nat = 1%nat.
Proof.
  induction l as [|a l IH]; intros k x Hc Hs Hk Hx.
  - simpl. destruct (Z.leb_spec k x); [reflexivity | lia].
  - apply StronglySorted_inv in Hc. destruct Hc as [Hc Ha].
    inversion Hs as [|? ? [Hlo [Hwf Hhi]] Hs']; subst.
    simpl Gaps_loop. rewrite Gaps_loop_acc. simpl fst. simpl snd.
    rewrite add_1_small by lia.
    rewrite coverage_cons, coverage_app.
    destruct (Z.le_gt_cases x (High a)) as [Hin|Hout].
    + (* the point is not beyond [a] *)
      assert (Hlow : Forall (fun b => High b < max_int /\ min_int <= High b
                                      /\ High a + 1 <= High b + 1) l).
      { rewrite Forall_forall in *. intros b Hb.
        specialize (Ha b Hb). destruct (Hs' b Hb) as [? [? ?]]. lia. }
      destruct (Gaps_loop_lower (High a + 1) l (High a + 1) Hlow
                  (Z.le_refl _)) as [Hf Hg].
      rewrite (coverage_none x l).
      2:{ rewrite Forall_forall in *. intros b Hb. apply covers_false_iff.
          specialize (Ha b Hb). left. lia. }
      rewrite (coverage_none x (snd (Gaps_loop l (High a + 1) []))).
      2:{ rewrite Forall_forall in *. intros g Hg'. apply covers_false_iff.
          specialize (Hg g Hg'). left. lia. }
      destruct (Z.leb_spec (fst (Gaps_loop l (High a + 1) [])) x); [lia|].
      rewrite Z.gtb_ltb.
      destruct (Z.ltb_spec k (Low a)) as [Hgap|Hnogap].
      * rewrite sub_1_small by lia.
        rewrite coverage_cons. unfold coverage at 1. simpl.
        destruct (covers x a) eqn:E1;
          destruct (covers x (mkInterval k (Low a - 1))) eqn:E2;
          try reflexivity; exfalso.
        -- apply covers_iff in E1, E2. simpl in E2. lia.
        -- apply covers_false_iff in E1, E2. simpl in E2. lia.
      * unfold coverage at 1. simpl.
        assert (covers x a = true) as -> by (apply covers_iff; lia).
        reflexivity.
    + (* the point is beyond [a] *)
      assert (covers x a = false) as -> by (apply covers_false_iff; lia).
      assert (Hacc : coverage x
                (if Low a >? k then [mkInterval k (sub (Low a) 1)]
                 else []) = 0%nat).
      { rewrite Z.gtb_ltb. destruct (Z.ltb_spec k (Low a)); [|reflexivity].
        rewrite sub_1_small by lia. apply coverage_none.
        repeat constructor. apply covers_false_iff. simpl. lia. }
      rewrite Hacc. simpl.
      apply IH; try assumption; lia.
Qed.

(** ** Pairwise separation *)

Lemma apart_sym a b : apart a b -> apart b a.
Proof. unfold apart. tauto. Qed.

Lemma pairwise_apart_perm l l' :
  Permutation l l' -> pairwise_apart l -> pairwise_apart l'.
Proof.
  unfold pairwise_apart.
  induction 1 as [| x l l' HP IH | x y l | l l' l'' _ IH1 _ IH2]; intros H.
  - exact H.
  - inversion H; subst. constructor.
    + eapply Permutation_Forall; eassumption.
    + auto.
  - inversion H as [|? ? Hy Hxl]; subst.
    inversion Hy; subst. inversion Hxl; subst.
    constructor; [constructor; [now apply apart_sym | assumption]|].
    constructor; assumption.
  - auto.
Qed.

(** Sorted by low bound, separated well-formed intervals form a chain. *)
Lemma ascending_apart_chain l :
  ascending l -> pairwise_apart l -> Forall well_formed l -> chain l.
Proof.
  unfold chain, pairwise_apart.
  induction l as [|a l IH]; intros Ha Hp Hw; [constructor|].
  apply ascending_inv in Ha. destruct Ha as [Ha Hle].
  inversion Hp as [|? ? Hap Hp']; subst. inversion Hw; subst.
  constructor; [auto|].
  rewrite Forall_forall in *. intros b Hb.
  specialize (Hle b Hb). specialize (Hap b Hb).
  assert (well_formed b) by auto.
  unfold low_le, apart, well_formed in *. lia.
Qed.

(** ** Strings and ordered parts *)

Lemma string_app_assoc (a b c : string) :
  ((a ++ b) ++ c = a ++ (b ++ c))%string.
Proof. induction a as [|x a IH]; simpl; [reflexivity | now rewrite IH]. Qed.

Lemma strip_prefix_app p r : strip_prefix p (p ++ r)%string = Some r.
Proof.
  induction p as [|a p IH]; simpl; [reflexivity|].
  now rewrite Ascii.eqb_refl.
Qed.

Lemma ordered_partsb_cons p ps s :
  ordered_partsb (p :: ps) s
  = (match strip_prefix p s with
     | Some rest => ordered_partsb ps rest
     | None => false
     end
     || match s with
        | EmptyString => false
        | String _ s' => ordered_partsb (p :: ps) s'
        end)%bool.
Proof. destruct s; reflexivity. Qed.

Lemma ordered_partsb_complete ps :
  forall s, ordered_parts ps s -> ordered_partsb ps s = true.
Proof.
  induction ps as [|p ps IH]; intros s H; [reflexivity|].
  destruct H as (pre & rest & -> & Hrest).
  induction pre as [|a pre IHpre].
  - change (EmptyString ++ p ++ rest)%string with (p ++ rest)%string.
    rewrite ordered_partsb_cons, strip_prefix_app, (IH rest Hrest).
    reflexivity.
  - change (String a pre ++ p ++ rest)%string
      with (String a (pre ++ p ++ rest)%string).
    rewrite ordered_partsb_cons, IHpre. apply orb_true_r.
Qed.

(** A part at the head of the text. *)
Lemma ordered_parts_head p ps rest :
  ordered_parts ps rest -> ordered_parts (p :: ps) (p ++ rest)%string.
Proof. intros H. exists EmptyString, rest. split; [reflexivity | exact H]. Qed.

(** ** The renderer *)

Lemma for_iter_preserves {S : Type} (P : S -> Prop) (body : Z -> S -> S) :
  (forall i s, P s -> P (body i s)) ->
  forall n i s, P s -> P (for_iter n i body s).
Proof.
  intros Hb. induction n as [|n IH]; simpl; intros i s Hs; [exact Hs|].
  apply IH, Hb, Hs.
Qed.

Lemma draw_empty_text i cv : intervalText (draw_empty i cv) = intervalText cv.
Proof.
  unfold draw_empty.
  destruct (Z.rem (add (index cv) 1) 10 =? 0); reflexivity.
Qed.

Lemma draw_full_text ov i cv :
  intervalText (draw_full ov i cv) = intervalText cv.
Proof.
  unfold draw_full.
  destruct (Z.rem (add (index cv) 1) blockSize =? 0); reflexivity.
Qed.

Lemma Print_body_text ov i intvl cv cv' :
  Print_body ov i intvl cv = Some cv' ->
  intervalText cv' = list_text_body i intvl (intervalText cv).
Proof.
  unfold Print_body, for_le, for_lt.
  set (cv1 := mkCanvas _ _ _ _).
  set (cv2 := for_iter _ _ draw_empty cv1).
  assert (H2 : intervalText cv2 = intervalText cv1).
  { apply (for_iter_preserves
             (fun s => intervalText s = intervalText cv1)); [|reflexivity].
    intros j s Hs. now rewrite draw_empty_text. }
  destruct (index cv2 <=? High intvl).
  - destruct (High intvl =? max_int); [discriminate|].
    intros H. inversion H; subst.
    transitivity (intervalText cv2); [|exact H2].
    apply (for_iter_preserves
             (fun s => intervalText s = intervalText cv2)); [|reflexivity].
    intros j s Hs. now rewrite draw_full_text.
  - intros H. inversion H; subst. exact H2.
Qed.

Lemma Print_loop_text ov l :
  forall i cv cv',
    Print_loop ov i l cv = Some cv' ->
    intervalText cv' = list_text_loop i l (intervalText cv).
Proof.
  induction l as [|intvl l IH]; simpl; intros i cv cv' H.
  - now inversion H.
  - destruct (Print_body ov i intvl cv) as [cv1|] eqn:E; [|discriminate].
    rewrite (IH _ _ _ H). f_equal. eapply Print_body_text, E.
Qed.

(** The drawing loops end as long as no interval ends on the largest
    [int]. *)
Lemma Print_loop_returns ov l :
  Forall (fun i => High i <> max_int) l ->
  forall i cv, exists cv', Print_loop ov i l cv = Some cv'.
Proof.
  induction 1 as [|intvl l Hi _ IH]; simpl; intros i cv.
  - now exists cv.
  - unfold Print_body, for_le.
    match goal with |- context [if ?c then _ else _] => destruct c end.
    + destruct (Z.eqb_spec (High intvl) max_int); [contradiction|]. apply IH.
    + apply IH.
Qed.

Lemma assemble_layout p :
  assemble p
  = (nl ++ introText p ++ legend p ++ intervalsPart p ++ gapsText p
        ++ overlapText p ++ (nl ++ nl) ++ axisLegend p ++ nl
        ++ graph_line p ++ nl)%string.
Proof.
  unfold assemble, graphText, graph_line.
  now rewrite !string_app_assoc.
Qed.

Lemma build_from l :
  forall c,
    Intervals (fold_left Add l c) = Intervals c ++ l
    /\ MinLow (fold_left Add l c) = MinLow c
    /\ MaxHigh (fold_left Add l c) = MaxHigh c
    /\ (Sorted c = false -> Sorted (fold_left Add l c) = false).
Proof.
  induction l as [|i l IH]; simpl; intros c.
  - now rewrite app_nil_r.
  - destruct (IH (Add c i)) as (HI & Hlo & Hhi & HS).
    rewrite HI, Hlo, Hhi. simpl. rewrite <- app_assoc.
    repeat split. intros _. now apply HS.
Qed.

Lemma Sort_build srt minLow maxHigh l :
  Sort srt (build minLow maxHigh l) = mkIntervals (srt l) minLow maxHigh true.
Proof.
  destruct (build_from l (NewIntervals minLow maxHigh))
    as (HI & Hlo & Hhi & HS).
  unfold Sort, build. rewrite HI, Hlo, Hhi, (HS eq_refl). reflexivity.
Qed.

(** [Print] reads the collection through [Sort] only. *)
Lemma Print_via_Sort srt c1 c2 :
  Sort srt c1 = Sort srt c2 -> Print srt c1 = Print srt c2.
Proof.
  intros H.
  change (Print srt c1) with (Print srt (Sort srt c1)).
  change (Print srt c2) with (Print srt (Sort srt c2)).
  now rewrite H.
Qed.

(** ** Facts shared by the walks and the renderer *)

Lemma wrap_in_range z : in_range (wrap z).
Proof.
  unfold in_range, min_int, max_int, wrap.
  pose proof (Z.mod_pos_bound (z + 9223372036854775808)
                18446744073709551616).
  lia.
Qed.

Lemma filter_perm (f : Interval -> bool) l l' :
  Permutation l l' -> Permutation (filter f l) (filter f l').
Proof.
  induction 1 as [| x l l' _ IH | x y l | l l' l'' _ IH1 _ IH2]; simpl.
  - constructor.
  - destruct (f x); [now constructor | exact IH].
  - destruct (f x), (f y); try apply Permutation_refl. apply perm_swap.
  - eapply Permutation_trans; eassumption.
Qed.

Lemma coverage_perm x l l' :
  Permutation l l' -> coverage x l = coverage x l'.
Proof.
  intros H. unfold coverage. apply Permutation_length. now apply filter_perm.
Qed.

Lemma coverage_pos_iff x l :
  (1 <= coverage x l)%nat <-> exists i, In i l /\ covers x i = true.
Proof.
  induction l as [|a l IH].
  - split; [cbv; lia | intros (i & [] & _)].
  - rewrite coverage_cons. split.
    + destruct (covers x a) eqn:E.
      * intros _. exists a. split; [now left | exact E].
      * intros H. apply IH in H. destruct H as (i & Hi & Hc).
        exists i. split; [now right | exact Hc].
    + intros (i & [->|Hi] & Hc).
      * rewrite Hc. lia.
      * assert (1 <= coverage x l)%nat by (apply IH; eauto). lia.
Qed.

Lemma ascending_app_le P :
  forall a l j, ascending (P ++ a :: l) -> In j P -> Low j <= Low a.
Proof.
  induction P as [|p P IH]; simpl; intros a l j H Hj; [contradiction|].
  apply ascending_inv in H. destruct H as [H Hp].
  destruct Hj as [->|Hj].
  - rewrite Forall_forall in Hp. apply Hp, in_elt.
  - eapply IH; eassumption.
Qed.

Lemma for_iter_append n :
  forall i (g s : string),
    for_iter n i (fun _ t => (t ++ s)%string) g = (g ++ replicate n s)%string.
Proof.
  induction n as [|n IH]; simpl; intros i g s.
  - induction g as [|a g IHg]; simpl; [reflexivity | now rewrite <- IHg].
  - now rewrite IH, string_app_assoc.
Qed.

Section Renderer.

Variable srt : list Interval -> list Interval.
Hypothesis srt_ok : sort_contract srt.

(** When the drawing loops end, [Print] lists the sorted items, the
    result of [Gaps] and the result of [Overlapped]. *)
Lemma Print_parts_shape c :
  Forall (fun i => High i <> max_int) (Intervals c) ->
  exists p,
    Print_parts srt c = Some (p, Sort srt c)
    /\ intervalsPart p
       = listing (nl ++ " • Intervals: ") (Intervals (Sort srt c))
    /\ gapsText p = listing (nl ++ " • Gaps: ") (fst (Gaps srt c))
    /\ overlapText p
       = listing (nl ++ " • Overlapped: ") (fst (Overlapped srt c)).
Proof.
  intros Hhigh.
  assert (Hhigh' : Forall (fun i => High i <> max_int)
                     (Intervals (Sort srt c))).
  { eapply Permutation_Forall; [apply (Sort_perm srt srt_ok)|exact Hhigh]. }
  unfold Print_parts.
  change (Overlapped srt (Sort srt c))
    with (fst (Overlapped srt c), Sort srt c).
  cbv beta iota.
  set (cv0 := mkCanvas _ _ _ _).
  destruct (Print_loop_returns (fst (Overlapped srt c)) _ Hhigh' 0%nat cv0)
    as [cv Hcv].
  rewrite Hcv.
  pose proof (Gaps_state srt c) as HG.
  change (Gaps srt (Sort srt c)) with (Gaps srt c).
  destruct (Gaps srt c) as [gaps c3]. simpl in HG. subst c3.
  eexists. split; [reflexivity|].
  cbn [intervalsPart gapsText overlapText fst].
  repeat split.
  apply (Print_loop_text _ _ _ _ _ Hcv).
Qed.

End Renderer.

(** ** The graph, unit by unit *)

Lemma string_app_nil_r (a : string) : (a ++ "")%string = a.
Proof. induction a as [|x a IH]; simpl; [reflexivity | now rewrite IH]. Qed.

Lemma wrap_add_l a b : wrap (wrap a + b) = wrap (a + b).
Proof.
  unfold wrap.
  replace ((a + 9223372036854775808) mod 18446744073709551616
           - 9223372036854775808 + b + 9223372036854775808)
    with ((a + 9223372036854775808) mod 18446744073709551616 + b) by lia.
  rewrite Zplus_mod_idemp_l. do 2 f_equal. lia.
Qed.

Lemma for_iter_ext {S : Type} (f g : Z -> S -> S) :
  (forall i s, f i s = g i s) ->
  forall n i s, for_iter n i f s = for_iter n i g s.
Proof.
  intros H. induction n as [|n IH]; simpl; intros i s; [reflexivity|].
  now rewrite H, IH.
Qed.

Lemma draw_empty_draw i cv : draw_empty i cv = draw (fun _ => emptySymbol) cv.
Proof.
  unfold draw_empty, draw.
  destruct (Z.rem (add (index cv) 1) 10 =? 0);
    now rewrite ?string_app_assoc.
Qed.

Lemma draw_full_draw ov i cv : draw_full ov i cv = draw (full_symbol ov) cv.
Proof.
  unfold draw_full, draw, full_symbol, blockSize.
  destruct (Z.rem (add (index cv) 1) 10 =? 0);
    destruct (isAnOverlap (index cv) ov); now rewrite ?string_app_assoc.
Qed.

Lemma cells_app sym n :
  forall m u,
    cells sym (n + m) u
    = (cells sym n u ++ cells sym m (u + Z.of_nat n))%string.
Proof.
  induction n as [|n IH]; intros m u.
  - simpl. now rewrite Z.add_0_r.
  - cbn [cells Nat.add]. rewrite IH, string_app_assoc.
    do 3 f_equal. lia.
Qed.

Lemma separators_app n :
  forall m u,
    separators (n + m) u = separators n u + separators m (u + Z.of_nat n).
Proof.
  induction n as [|n IH]; intros m u.
  - simpl. now rewrite Z.add_0_r.
  - cbn [separators Nat.add]. rewrite IH.
    replace (u + 1 + Z.of_nat n) with (u + Z.of_nat (S n)) by lia. lia.
Qed.

Lemma cells_ext sym1 sym2 n :
  forall u,
    (forall v, u <= v < u + Z.of_nat n -> sym1 v = sym2 v) ->
    cells sym1 n u = cells sym2 n u.
Proof.
  induction n as [|n IH]; intros u H; [reflexivity|].
  cbn [cells]. unfold cell. rewrite (H u) by lia.
  rewrite IH; [reflexivity|]. intros v Hv. apply H. lia.
Qed.

(** [n] steps of a drawing loop that stay within [int]. *)
Lemma draw_run sym n :
  forall i cv,
    min_int <= index cv ->
    index cv + Z.of_nat n <= max_int ->
    in_range (numSeparators cv) ->
    for_iter n i (fun _ s => draw sym s) cv
    = {| intervalText := intervalText cv;
         graph := (graph cv ++ cells sym n (index cv))%string;
         index := index cv + Z.of_nat n;
         numSeparators :=
           wrap (numSeparators cv + separators n (index cv)) |}.
Proof.
  induction n as [|n IH]; intros i cv Hlo Hhi Hsep.
  - simpl. rewrite string_app_nil_r, !Z.add_0_r, (wrap_small _ Hsep).
    now destruct cv.
  - cbn [for_iter].
    assert (Hadd : add (index cv) 1 = index cv + 1)
      by (apply add_1_small; lia).
    rewrite IH.
    + unfold draw. rewrite Hadd. cbn [cells separators]. unfold cell.
      destruct (Z.rem (index cv + 1) 10 =? 0);
        cbn [intervalText graph index numSeparators];
        f_equal.
      * now rewrite !string_app_assoc.
      * lia.
      * unfold add. rewrite wrap_add_l. f_equal. lia.
      * now rewrite !string_app_assoc.
      * lia.
    + unfold draw. rewrite Hadd.
      destruct (Z.rem (index cv + 1) 10 =? 0); simpl; lia.
    + unfold draw. rewrite Hadd.
      destruct (Z.rem (index cv + 1) 10 =? 0); simpl; lia.
    + unfold draw.
      destruct (Z.rem (add (index cv) 1) 10 =? 0); simpl;
        [apply wrap_in_range | exact Hsep].
Qed.

Lemma drawn_end_perm l l' :
  Permutation l l' -> forall k, drawn_end l k = drawn_end l' k.
Proof.
  unfold drawn_end.
  induction 1 as [| x l l' _ IH | x y l | l l' l'' _ IH1 _ IH2];
    intros k; simpl.
  - reflexivity.
  - apply IH.
  - f_equal. lia.
  - now rewrite IH1, IH2.
Qed.

Lemma drawn_end_snoc P a k :
  drawn_end (P ++ [a]) k
  = Z.max (Z.max (drawn_end P k) (Low a)) (High a + 1).
Proof. unfold drawn_end. now rewrite fold_left_app. Qed.

Lemma ascending_app_r P :
  forall l, ascending (P ++ l) -> ascending l.
Proof.
  induction P as [|p P IH]; simpl; intros l H; [exact H|].
  apply ascending_inv in H. apply IH, H.
Qed.

(** One interval drawn: empty symbols up to its low bound, then its own
    symbols up to its high bound, both counted from the index. *)
Lemma Print_body_run ov i a cv :
  in_range (index cv) ->
  in_range (numSeparators cv) ->
  int_bounds a ->
  High a <> max_int ->
  let k := index cv in
  let k2 := Z.max k (Low a) in
  let k3 := Z.max k2 (High a + 1) in
  Print_body ov i a cv
  = Some
      {| intervalText := list_text_body i a (intervalText cv);
         graph :=
           (graph cv
              ++ cells (fun _ => emptySymbol) (Z.to_nat (k2 - k)) k
              ++ cells (full_symbol ov) (Z.to_nat (k3 - k2)) k2)%string;
         index := k3;
         numSeparators :=
           wrap (numSeparators cv
                 + (separators (Z.to_nat (k2 - k)) k
                    + separators (Z.to_nat (k3 - k2)) k2)) |}.
Proof.
  intros Hk Hsep [HL HH] Hmax k k2 k3. unfold in_range in Hk, HL, HH.
  unfold Print_body, for_lt.
  rewrite (for_iter_ext draw_empty
             (fun _ s => draw (fun _ => emptySymbol) s) draw_empty_draw).
  cbn [index].
  rewrite draw_run; cbn [index numSeparators intervalText graph];
    [| lia | lia | exact Hsep].
  fold k.
  replace (Z.to_nat (Low a - k)) with (Z.to_nat (k2 - k)) by lia.
  replace (k + Z.of_nat (Z.to_nat (k2 - k))) with k2 by lia.
  unfold for_le, for_lt. cbn [index].
  assert (Hrun :
    for_iter (Z.to_nat (k3 - k2)) k2 (draw_full ov)
      {| intervalText := list_text_body i a (intervalText cv);
         graph := (graph cv
                     ++ cells (fun _ => emptySymbol) (Z.to_nat (k2 - k)) k)
                  %string;
         index := k2;
         numSeparators :=
           wrap (numSeparators cv + separators (Z.to_nat (k2 - k)) k) |}
    = {| intervalText := list_text_body i a (intervalText cv);
         graph :=
           (graph cv
              ++ cells (fun _ => emptySymbol) (Z.to_nat (k2 - k)) k
              ++ cells (full_symbol ov) (Z.to_nat (k3 - k2)) k2)%string;
         index := k3;
         numSeparators :=
           wrap (numSeparators cv
                 + (separators (Z.to_nat (k2 - k)) k
                    + separators (Z.to_nat (k3 - k2)) k2)) |}).
  { rewrite (for_iter_ext (draw_full ov)
               (fun _ s => draw (full_symbol ov) s) (draw_full_draw ov)).
    rewrite draw_run; cbn [index numSeparators intervalText graph];
      [| lia | lia | apply wrap_in_range].
    f_equal.
    - now rewrite string_app_assoc.
    - lia.
    - rewrite wrap_add_l. f_equal. lia. }
  destruct (Z.leb_spec k2 (High a)) as [Hin|Hout].
  - destruct (Z.eqb_spec (High a) max_int); [contradiction|].
    replace (Z.to_nat (High a + 1 - k2)) with (Z.to_nat (k3 - k2)) by lia.
    now rewrite Hrun.
  - replace (Z.to_nat (k3 - k2)) with 0%nat in Hrun |- * by lia.
    rewrite <- Hrun. reflexivity.
Qed.

(** The invariant of the drawing: the graph holds one cell for every
    unit from [minLow] up to the index, with the symbol of its unit. *)
Lemma Print_loop_graph ov L m l :
  forall P i cv,
    L = P ++ l ->
    ascending L ->
    Forall int_bounds L ->
    Forall (fun a => High a <> max_int) L ->
    in_range (index cv) ->
    m <= index cv ->
    (forall p, In p P -> High p < index cv) ->
    index cv = drawn_end P m ->
    graph cv = cells (unit_symbol L ov) (Z.to_nat (index cv - m)) m ->
    numSeparators cv = wrap (separators (Z.to_nat (index cv - m)) m) ->
    exists cv',
      Print_loop ov i l cv = Some cv'
      /\ index cv' = drawn_end L m
      /\ graph cv' = cells (unit_symbol L ov) (Z.to_nat (index cv' - m)) m
      /\ numSeparators cv'
         = wrap (separators (Z.to_nat (index cv' - m)) m).
Proof.
  induction l as [|a l IH];
    intros P i cv HL Hasc Hb Hmax Hk Hm HP Hend Hgraph Hsep.
  - rewrite app_nil_r in HL. subst P.
    exists cv. repeat split; assumption.
  - assert (Ha : In a L) by (subst L; apply in_elt).
    assert (Hba : int_bounds a) by (rewrite Forall_forall in Hb; auto).
    assert (Hma : High a <> max_int)
      by (rewrite Forall_forall in Hmax; auto).
    assert (Hsr : in_range (numSeparators cv))
      by (rewrite Hsep; apply wrap_in_range).
    cbn [Print_loop].
    rewrite (Print_body_run ov i a cv Hk Hsr Hba Hma).
    set (k := index cv) in *.
    set (k2 := Z.max k (Low a)).
    set (k3 := Z.max k2 (High a + 1)).
    destruct Hba as [HLa HHa]. unfold in_range in *.
    assert (Hlater : forall q, In q l -> Low a <= Low q).
    { intros q Hq. subst L. apply ascending_app_r in Hasc.
      apply ascending_inv in Hasc. destruct Hasc as [_ Hle].
      rewrite Forall_forall in Hle. apply Hle, Hq. }
    assert (Hcount : Z.to_nat (k3 - m)
                     = (Z.to_nat (k - m)
                        + (Z.to_nat (k2 - k) + Z.to_nat (k3 - k2)))%nat)
      by lia.
    apply (IH (P ++ [a])); cbn [index graph numSeparators].
    + subst L. now rewrite <- app_assoc.
    + assumption.
    + assumption.
    + assumption.
    + lia.
    + lia.
    + intros p Hp. apply in_app_or in Hp. destruct Hp as [Hp|[<-|[]]].
      * specialize (HP p Hp). lia.
      * lia.
    + rewrite drawn_end_snoc, <- Hend. reflexivity.
    + rewrite Hcount, !cells_app, Hgraph.
      replace (m + Z.of_nat (Z.to_nat (k - m))) with k by lia.
      replace (k + Z.of_nat (Z.to_nat (k2 - k))) with k2 by lia.
      f_equal. f_equal.
      * apply cells_ext. intros v Hv. unfold unit_symbol.
        rewrite coverage_none; [reflexivity|].
        apply Forall_forall. intros q Hq. apply covers_false_iff.
        subst L. apply in_app_or in Hq. destruct Hq as [Hq|[<-|Hq]].
        -- right. specialize (HP q Hq). lia.
        -- left. lia.
        -- left. specialize (Hlater q Hq). lia.
      * apply cells_ext. intros v Hv. unfold unit_symbol, full_symbol.
        assert (Hc : (1 <= coverage v L)%nat).
        { apply coverage_pos_iff. exists a. split; [exact Ha|].
          apply covers_iff. lia. }
        destruct (Nat.eqb_spec (coverage v L) 0); [lia | reflexivity].
    + rewrite Hsep, wrap_add_l, Hcount, !separators_app.
      replace (m + Z.of_nat (Z.to_nat (k - m))) with k by lia.
      replace (k + Z.of_nat (Z.to_nat (k2 - k))) with k2 by lia.
      reflexivity.
Qed.

Section Drawing.

Variable srt : list Interval -> list Interval.
Hypothesis srt_ok : sort_contract srt.

(** Every string that [Print] builds, on a collection built through the
    interface, with bounds in [int] and no interval that ends on the
    largest [int]. *)
Lemma Print_parts_full c :
  reachable srt c ->
  in_range (MinLow c) ->
  Forall int_bounds (Intervals c) ->
  Forall (fun i => High i <> max_int) (Intervals c) ->
  let stop := drawn_end (Intervals c) (MinLow c) in
  let n := Z.to_nat (stop - MinLow c) in
  exists p,
    Print_parts srt c = Some (p, Sort srt c)
    /\ introText p = header_text (MinLow c) (MaxHigh c)
    /\ legend p = legend_text
    /\ intervalsPart p
       = listing (nl ++ " • Intervals: ") (Intervals (Sort srt c))
    /\ gapsText p = listing (nl ++ " • Gaps: ") (fst (Gaps srt c))
    /\ overlapText p
       = listing (nl ++ " • Overlapped: ") (fst (Overlapped srt c))
    /\ axisLegend p
       = axis_text (MinLow c) (MaxHigh c)
           (Z.to_nat (sub (add (MaxHigh c)
                             (wrap (separators n (MinLow c)))) 2
                      - MinLow c))
    /\ graphPart p
       = (cells (unit_symbol (Intervals c) (fst (Overlapped srt c))) n
            (MinLow c)
          ++ replicate (Z.to_nat (MaxHigh c - stop)) emptySymbol)%string.
Proof.
  intros Hr Hk Hb Hhigh stop n.
  pose proof (Sort_perm srt srt_ok c) as HP.
  assert (Hasc : ascending (Intervals (Sort srt c))).
  { apply Sort_ascending; [assumption|].
    now apply (reachable_flag_ok srt srt_ok). }
  assert (Hb' : Forall int_bounds (Intervals (Sort srt c)))
    by (eapply Permutation_Forall; eassumption).
  assert (Hhigh' : Forall (fun i => High i <> max_int)
                     (Intervals (Sort srt c)))
    by (eapply Permutation_Forall; eassumption).
  unfold Print_parts.
  change (Overlapped srt (Sort srt c))
    with (fst (Overlapped srt c), Sort srt c).
  cbv beta iota.
  set (cv0 := mkCanvas _ _ _ _).
  destruct (Print_loop_graph (fst (Overlapped srt c))
              (Intervals (Sort srt c)) (MinLow c)
              (Intervals (Sort srt c)) [] 0%nat cv0)
    as (cv & Hcv & Hidx & Hgraph & Hsep);
    change (index cv0) with (MinLow c);
    change (graph cv0) with EmptyString;
    change (numSeparators cv0) with 0;
    rewrite ?Z.sub_diag;
    try assumption; try reflexivity; try lia.
  { intros p []. }
  change (Intervals (Sort srt (Sort srt c)))
    with (Intervals (Sort srt c)).
  rewrite Hcv.
  pose proof (Gaps_state srt c) as HG.
  change (Gaps srt (Sort srt c)) with (Gaps srt c).
  destruct (Gaps srt c) as [gaps c3]. simpl in HG. subst c3.
  assert (Hstop : index cv = stop).
  { rewrite Hidx. unfold stop. symmetry. now apply drawn_end_perm. }
  rewrite Hstop in Hgraph, Hsep. fold n in Hgraph, Hsep.
  eexists. split; [reflexivity|].
  cbn [introText legend intervalsPart gapsText overlapText axisLegend
       graphPart fst].
  change (MinLow (Sort srt c)) with (MinLow c).
  change (MaxHigh (Sort srt c)) with (MaxHigh c).
  split; [reflexivity|]. split; [reflexivity|].
  split; [apply (Print_loop_text _ _ _ _ _ Hcv)|].
  split; [reflexivity|]. split; [reflexivity|].
  split.
  - unfold for_lt, axis_text. rewrite for_iter_append, Hsep.
    now rewrite !string_app_assoc.
  - unfold for_lt. rewrite for_iter_append, Hstop, Hgraph.
    f_equal. apply cells_ext. intros v _. unfold unit_symbol.
    now rewrite (coverage_perm v _ _ HP).
Qed.

End Drawing.

(** * The properties of the specification *)

Section Claims.

Variable srt : list Interval -> list Interval.
Hypothesis srt_ok : sort_contract srt.

(** C1, as amended.  Take a collection built through the interface whose
    intervals hold bounds with [min_int <= low <= high < max_int] and
    are pairwise apart (no overlap, no nesting), over a domain whose
    lower bound is an [int].  Then every point [x] of the domain
    [[minLow, maxHigh]] lies in exactly one interval of the items
    followed by the result of [Gaps()].  One point is left out of the
    statement: [maxHigh] itself when the cursor of the walk ends
    exactly on [maxHigh]. *)
Theorem Gaps_tile_domain c x :
  reachable srt c ->
  min_int <= MinLow c ->
  Forall gap_safe (Intervals c) ->
  pairwise_apart (Intervals c) ->
  MinLow c <= x <= MaxHigh c ->
  ~ (x = MaxHigh c /\ Gaps_cursor srt c = MaxHigh c) ->
  coverage x (Intervals (snd (Gaps srt c)) ++ fst (Gaps srt c)) = 1%nat.
Proof.
  intros Hr Hmin Hsafe Hapart Hx Hslip.
  rewrite Gaps_state. unfold Gaps, Gaps_cursor in *.
  pose proof (Sort_perm srt srt_ok c) as HP.
  assert (Hsafe' : Forall gap_safe (Intervals (Sort srt c)))
    by (eapply Permutation_Forall; eassumption).
  assert (Hchain : chain (Intervals (Sort srt c))).
  { apply ascending_apart_chain.
    - apply Sort_ascending; [assumption|].
      now apply (reachable_flag_ok srt srt_ok).
    - eapply pairwise_apart_perm; eassumption.
    - eapply Forall_impl; [|exact Hsafe']. unfold gap_safe, well_formed.
      intros; lia. }
  pose proof (Gaps_loop_tiles (Intervals (Sort srt c)) (MinLow c) x
                Hchain Hsafe' Hmin (proj1 Hx)) as HT.
  change (MinLow (Sort srt c)) with (MinLow c) in *.
  change (MaxHigh (Sort srt c)) with (MaxHigh c) in *.
  destruct (Gaps_loop (Intervals (Sort srt c)) (MinLow c) [])
    as [lastHigh gaps].
  simpl in *.
  destruct (Z.ltb_spec lastHigh (MaxHigh c)) as [Htrail|Hnone];
    rewrite !coverage_app.
  - rewrite coverage_cons. change (coverage x []) with 0%nat.
    replace (covers x (mkInterval lastHigh (MaxHigh c)))
      with (lastHigh <=? x); [lia|].
    unfold covers. simpl.
    destruct (Z.leb_spec x (MaxHigh c)); [|lia].
    now rewrite andb_true_r.
  - destruct (Z.leb_spec lastHigh x); [|lia].
    exfalso. apply Hslip. lia.
Qed.

(** C2.  Domain [[0,40]], intervals added as [[5,10]], [[8,15]],
    [[30,35]]: the sorted order is the order of insertion, [Gaps()]
    returns [[0,4]], [[16,29]], [[36,40]], and [Overlapped()] returns
    the single interval [[8,10]], emitted for [[8,15]] against the
    envelope [[5,10]], while [[30,35]] against the envelope [[5,15]]
    emits nothing. *)
Theorem scenario_0_40 :
  let c := build 0 40 [mkInterval 5 10; mkInterval 8 15; mkInterval 30 35] in
  let e1 := Overlapped_body 0 (mkInterval 5 10) Overlapped_init in
  let e2 := Overlapped_body 1 (mkInterval 8 15) e1 in
  let e3 := Overlapped_body 2 (mkInterval 30 35) e2 in
  Intervals (Sort srt c)
  = [mkInterval 5 10; mkInterval 8 15; mkInterval 30 35]
  /\ fst (Gaps srt c)
     = [mkInterval 0 4; mkInterval 16 29; mkInterval 36 40]
  /\ fst (Overlapped srt c) = [mkInterval 8 10]
  /\ e1 = mkEnvelope [] 5 10
  /\ e2 = mkEnvelope [mkInterval 8 10] 5 15
  /\ e3 = mkEnvelope [mkInterval 8 10] 5 35.
Proof.
  intros c e1 e2 e3.
  assert (HS : Sort srt c
               = mkIntervals
                   [mkInterval 5 10; mkInterval 8 15; mkInterval 30 35]
                   0 40 true).
  { unfold Sort, c. simpl. f_equal. apply (sort_fixes srt srt_ok).
    - apply ascendingb_sound. reflexivity.
    - simpl. repeat constructor; simpl; intuition discriminate. }
  unfold Gaps, Overlapped. rewrite HS.
  repeat split; reflexivity.
Qed.

(** C3.  Domain [[0,20]], intervals [[0,10]] then [[2,3]]: the cursor of
    the gap walk goes from 0 to 11 and back to 4, since it is assigned
    [High + 1] of each interval and not a running maximum, and [Gaps()]
    returns a gap whose low bound is 4. *)
Theorem nested_gap_starts_at_4 :
  let c := build 0 20 [mkInterval 0 10; mkInterval 2 3] in
  fst (Gaps_loop [mkInterval 0 10] 0 []) = 11
  /\ Gaps_cursor srt c = 4
  /\ fst (Gaps srt c) = [mkInterval 4 20]
  /\ Exists (fun g => Low g = 4) (fst (Gaps srt c)).
Proof.
  intros c.
  assert (HS : Sort srt c
               = mkIntervals [mkInterval 0 10; mkInterval 2 3] 0 20 true).
  { unfold Sort, c. simpl. f_equal. apply (sort_fixes srt srt_ok).
    - apply ascendingb_sound. reflexivity.
    - simpl. repeat constructor; simpl; intuition discriminate. }
  unfold Gaps, Gaps_cursor. rewrite HS.
  repeat split; try reflexivity.
  left. reflexivity.
Qed.

(** C6.  On every collection built through the interface, a set flag
    means that the items are ascending by low bound.  The flag moves as
    follows: [Add] appends and clears it; [Sort], and with it [Gaps],
    [Overlapped] and [Print], leave it set, over items that are then
    ascending; [FindIntervalsForValue] leaves it as it is. *)
Theorem sorted_flag_discipline c itvl value :
  reachable srt c ->
  (Sorted c = true -> ascending (Intervals c))
  /\ (Sorted (Add c itvl) = false
      /\ Intervals (Add c itvl) = Intervals c ++ [itvl])
  /\ (Sorted (Sort srt c) = true /\ ascending (Intervals (Sort srt c)))
  /\ Sorted (snd (Gaps srt c)) = true
  /\ Sorted (snd (Overlapped srt c)) = true
  /\ (forall text c', Print srt c = Some (text, c') -> Sorted c' = true)
  /\ Sorted (snd (FindIntervalsForValue c value)) = Sorted c.
Proof.
  intros Hr.
  pose proof (reachable_flag_ok srt srt_ok c Hr) as Hinv.
  repeat split.
  - exact Hinv.
  - now apply Sort_ascending.
  - now rewrite Gaps_state.
  - intros text c' HP. apply Print_state in HP. now subst.
Qed.

(** C7.  On every collection built through the interface (empty or not),
    sorting twice gives what sorting once gives, and after [Sort] the
    items are ascending by low bound. *)
Theorem Sort_twice c :
  reachable srt c ->
  Sort srt (Sort srt c) = Sort srt c
  /\ Intervals (Sort srt (Sort srt c)) = Intervals (Sort srt c)
  /\ ascending (Intervals (Sort srt c)).
Proof.
  intros Hr. repeat split.
  apply Sort_ascending; [assumption|].
  now apply (reachable_flag_ok srt srt_ok).
Qed.

(** C9.  With no interval or a single one, [Overlapped()] returns the
    empty sequence, whatever the bounds. *)
Theorem Overlapped_of_at_most_one c :
  (List.length (Intervals c) <= 1)%nat ->
  fst (Overlapped srt c) = [].
Proof.
  intros Hlen.
  change (fst (Overlapped srt c))
    with (list_ (Overlapped_loop 0 (Intervals (Sort srt c))
                   Overlapped_init)).
  pose proof (Permutation_length (Sort_perm srt srt_ok c)) as HL.
  generalize dependent (Intervals (Sort srt c)).
  intros [|a [|b l]] HL; simpl in HL; [reflexivity | reflexivity | lia].
Qed.

(** C10.  When every interval of the collection has [low <= high],
    so has every interval that [Overlapped()] returns. *)
Theorem Overlapped_well_formed c :
  Forall well_formed (Intervals c) ->
  Forall well_formed (fst (Overlapped srt c)).
Proof.
  intros Hw.
  change (fst (Overlapped srt c))
    with (list_ (Overlapped_loop 0 (Intervals (Sort srt c))
                   Overlapped_init)).
  apply Overlapped_loop_well_formed.
  - eapply Permutation_Forall; [apply (Sort_perm srt srt_ok)|exact Hw].
  - now left.
  - constructor.
Qed.

(** C4, as amended.  Two collections with the same domain bounds,
    filled by [Add] with the same intervals in two different orders,
    have the same outcome of [Print()] (the same text, and a text
    whenever no interval ends on the largest [int]), provided that
    intervals with equal low bounds are equal. *)
Theorem Print_insertion_order minLow maxHigh l1 l2 :
  Permutation l1 l2 ->
  (forall a b, In a l1 -> In b l1 -> Low a = Low b -> a = b) ->
  Print srt (build minLow maxHigh l1) = Print srt (build minLow maxHigh l2)
  /\ (Forall (fun i => High i <> max_int) l1 ->
      exists text c',
        Print srt (build minLow maxHigh l1) = Some (text, c')
        /\ Print srt (build minLow maxHigh l2) = Some (text, c')).
Proof.
  intros HP Hinj.
  assert (HE : Print srt (build minLow maxHigh l1)
               = Print srt (build minLow maxHigh l2)).
  { apply Print_via_Sort. rewrite !Sort_build. f_equal.
    apply ascending_perm_unique.
    - eapply Permutation_trans;
        [apply Permutation_sym, (sort_perm srt srt_ok)|].
      eapply Permutation_trans; [exact HP|]. apply (sort_perm srt srt_ok).
    - apply (sort_ascending srt srt_ok).
    - apply (sort_ascending srt srt_ok).
    - intros a b Ha Hb. apply Hinj.
      + eapply Permutation_in;
          [apply Permutation_sym, (sort_perm srt srt_ok) | exact Ha].
      + eapply Permutation_in;
          [apply Permutation_sym, (sort_perm srt srt_ok) | exact Hb]. }
  split; [exact HE|].
  intros Hhigh. rewrite <- HE.
  destruct (Print_parts_shape srt srt_ok (build minLow maxHigh l1))
    as (p & Hp & _).
  { unfold build.
    destruct (build_from l1 (NewIntervals minLow maxHigh)) as (-> & _).
    exact Hhigh. }
  exists (assemble p), (Sort srt (build minLow maxHigh l1)).
  unfold Print. rewrite Hp. split; reflexivity.
Qed.

(** C5, as amended.  On every collection built through the interface
    whose bounds are values of [int] and none of whose intervals ends on
    the largest [int], [Print()] returns a text made of, in this order:
    the header that names [minLow] and [maxHigh], the legend, the listing
    of the sorted items, the listing of the gaps, the listing of the
    overlaps, then the axis line, with [minLow] on the left and
    [maxHigh] on the right, and, after the axis, the graph line between
    its frame characters.  The graph holds one cell per unit from
    [minLow] up to where the drawing stops (the symbol of the unit: empty
    when no item holds it, overlap when it lies in an overlap, full
    otherwise; a separator after every unit that ends a block of ten),
    then one empty symbol per unit left below [maxHigh].  The axis is
    padded with [maxHigh + separators - 2 - minLow] spaces. *)
Theorem Print_layout c :
  reachable srt c ->
  in_range (MinLow c) ->
  Forall int_bounds (Intervals c) ->
  Forall (fun i => High i <> max_int) (Intervals c) ->
  let stop := drawn_end (Intervals c) (MinLow c) in
  let n := Z.to_nat (stop - MinLow c) in
  exists p,
    Print srt c = Some (assemble p, Sort srt c)
    /\ ordered_parts (code_order p) (assemble p)
    /\ assemble p
       = (nl ++ introText p ++ legend p ++ intervalsPart p ++ gapsText p
             ++ overlapText p ++ (nl ++ nl) ++ axisLegend p ++ nl
             ++ graph_line p ++ nl)%string
    /\ introText p = header_text (MinLow c) (MaxHigh c)
    /\ legend p = legend_text
    /\ intervalsPart p
       = listing (nl ++ " • Intervals: ") (Intervals (Sort srt c))
    /\ gapsText p = listing (nl ++ " • Gaps: ") (fst (Gaps srt c))
    /\ overlapText p
       = listing (nl ++ " • Overlapped: ") (fst (Overlapped srt c))
    /\ axisLegend p
       = axis_text (MinLow c) (MaxHigh c)
           (Z.to_nat (sub (add (MaxHigh c)
                             (wrap (separators n (MinLow c)))) 2
                      - MinLow c))
    /\ graphPart p
       = (cells (unit_symbol (Intervals c) (fst (Overlapped srt c))) n
            (MinLow c)
          ++ replicate (Z.to_nat (MaxHigh c - stop)) emptySymbol)%string.
Proof.
  intros Hr Hk Hb Hhigh stop n.
  destruct (Print_parts_full srt srt_ok c Hr Hk Hb Hhigh)
    as (p & Hp & Hparts).
  exists p. split; [unfold Print; now rewrite Hp|].
  split; [|split; [apply assemble_layout | exact Hparts]].
  rewrite assemble_layout. unfold code_order.
  exists nl. eexists. split; [reflexivity|].
  do 4 apply ordered_parts_head.
  exists (nl ++ nl)%string. eexists. split; [reflexivity|].
  exists nl, nl. split; [reflexivity | exact I].
Qed.

End Claims.

(** C8.  [FindIntervalsForValue(value)] returns the items with
    [low <= value <= high], both ends included, in the order they have in
    the collection, and leaves the collection, flag included, as it
    found it: nothing is sorted.  An interval is in the result exactly
    when it is an item that holds the value, so that the result is empty
    exactly when no item does; alone in a collection, [[3,7]] is returned
    for 3 and for 7, not for 2 nor for 8. *)
Theorem FindIntervalsForValue_exact c value :
  FindIntervalsForValue c value
  = (filter (fun i => (Low i <=? value) && (value <=? High i)) (Intervals c),
     c)
  /\ (forall i, In i (fst (FindIntervalsForValue c value))
                <-> In i (Intervals c) /\ Low i <= value <= High i)
  /\ (fst (FindIntervalsForValue c value) = []
      <-> forall i, In i (Intervals c) -> ~ Low i <= value <= High i)
  /\ (let c37 := Add (NewIntervals (MinLow c) (MaxHigh c)) (mkInterval 3 7) in
      fst (FindIntervalsForValue c37 3) = [mkInterval 3 7]
      /\ fst (FindIntervalsForValue c37 7) = [mkInterval 3 7]
      /\ fst (FindIntervalsForValue c37 2) = []
      /\ fst (FindIntervalsForValue c37 8) = []).
Proof.
  assert (HF : fst (FindIntervalsForValue c value)
               = filter (covers value) (Intervals c)).
  { unfold FindIntervalsForValue. simpl.
    now rewrite FindIntervalsForValue_loop_filter. }
  assert (HI : forall i, In i (fst (FindIntervalsForValue c value))
                         <-> In i (Intervals c) /\ Low i <= value <= High i).
  { intros i. rewrite HF, filter_In, covers_iff. tauto. }
  split; [|split; [exact HI | split]].
  - unfold FindIntervalsForValue.
    now rewrite FindIntervalsForValue_loop_filter.
  - split.
    + intros HE i Hi Hc. specialize (proj2 (HI i) (conj Hi Hc)).
      rewrite HE. intros [].
    + intros HN. destruct (fst (FindIntervalsForValue c value)) as [|i r] eqn:E;
        [reflexivity|].
      exfalso. destruct (proj1 (HI i) (or_introl eq_refl)) as [Hi Hc].
      exact (HN i Hi Hc).
  - repeat split.
Qed.

(** * Instances

    The statements above, at [insertionSort] and on concrete
    collections. *)

Lemma Gaps_tile_domain_witness :
  let c := build 0 40 [mkInterval 30 35; mkInterval 5 10; mkInterval 12 15] in
  pairwise_apart (Intervals c)
  /\ MinLow c <= 20 <= MaxHigh c
  /\ coverage 20 (Intervals (snd (Gaps insertionSort c))
                    ++ fst (Gaps insertionSort c)) = 1%nat.
Proof.
  intros c.
  assert (Hap : pairwise_apart (Intervals c)).
  { repeat constructor; unfold apart; simpl; lia. }
  assert (Hx : MinLow c <= 20 <= MaxHigh c) by (simpl; lia).
  split; [exact Hap | split; [exact Hx|]].
  apply (Gaps_tile_domain insertionSort insertionSort_contract c 20).
  - repeat constructor.
  - unfold min_int. simpl. lia.
  - repeat constructor; unfold max_int, min_int; simpl; lia.
  - exact Hap.
  - exact Hx.
  - simpl. intros [H _]. lia.
Defined.

(** The claim C1 as it is written fails on an interval with [low > high],
    which [Add] takes as it is: in the domain [[0,10]] with the single
    interval [[5,2]], the gaps are [[0,4]] and [[3,10]], and the point 3
    lies in both. *)
Lemma Gaps_tile_domain_counterexample :
  let c := build 0 10 [mkInterval 5 2] in
  reachable insertionSort c
  /\ pairwise_apart (Intervals c)
  /\ MinLow c <= 3 <= MaxHigh c
  /\ fst (Gaps insertionSort c) = [mkInterval 0 4; mkInterval 3 10]
  /\ coverage 3 (Intervals (snd (Gaps insertionSort c))
                   ++ fst (Gaps insertionSort c)) <> 1%nat.
Proof.
  intros c. split; [repeat constructor|].
  split; [repeat constructor|].
  split; [simpl; lia|].
  split; [reflexivity|].
  vm_compute. discriminate.
Qed.

(** The point the amended C1 leaves out: the gap walk tests
    [lastHigh < maxHigh], so a last gap of one point, [[maxHigh, maxHigh]],
    is not emitted, while the loop does emit gaps of one point. *)
Example Gaps_last_point_missed :
  let c := build 0 10 [mkInterval 0 9] in
  fst (Gaps insertionSort c) = []
  /\ coverage 10 (Intervals (snd (Gaps insertionSort c))
                    ++ fst (Gaps insertionSort c)) = 0%nat
  /\ fst (Gaps insertionSort (build 0 10 [mkInterval 0 3; mkInterval 5 10]))
     = [mkInterval 4 4].
Proof. repeat split. Qed.

(** An interval that ends on the largest [int]: [High + 1] wraps, and the
    walk ends with a gap over every [int]. *)
Example Gaps_cursor_wraps :
  fst (Gaps insertionSort (Add NewIntervalsDefault (mkInterval 0 max_int)))
  = [mkInterval min_int max_int].
Proof. reflexivity. Qed.

Lemma scenario_0_40_witness :
  Intervals (Sort insertionSort scenario)
  = [mkInterval 5 10; mkInterval 8 15; mkInterval 30 35]
  /\ fst (Gaps insertionSort scenario)
     = [mkInterval 0 4; mkInterval 16 29; mkInterval 36 40]
  /\ fst (Overlapped insertionSort scenario) = [mkInterval 8 10].
Proof.
  pose proof (scenario_0_40 insertionSort insertionSort_contract) as H.
  simpl in H. destruct H as (H1 & H2 & H3 & _).
  repeat split; assumption.
Defined.

Lemma nested_gap_starts_at_4_witness :
  fst (Gaps insertionSort (build 0 20 [mkInterval 0 10; mkInterval 2 3]))
  = [mkInterval 4 20].
Proof.
  exact (proj1 (proj2 (proj2
           (nested_gap_starts_at_4 insertionSort insertionSort_contract)))).
Defined.

Lemma sorted_flag_discipline_witness :
  let c := Add (Sort insertionSort scenario) (mkInterval 1 2) in
  Sorted c = false
  /\ Sorted (Sort insertionSort c) = true
  /\ ascending (Intervals (Sort insertionSort c))
  /\ Sorted (snd (FindIntervalsForValue c 9)) = false.
Proof.
  intros c.
  destruct (sorted_flag_discipline insertionSort insertionSort_contract
              c (mkInterval 1 2) 9)
    as (_ & _ & [H3 H3'] & _ & _ & _ & H7).
  - repeat constructor.
  - split; [reflexivity|]. split; [exact H3|]. split; [exact H3' | exact H7].
Defined.

Lemma Sort_twice_witness :
  let c := build 0 40 [mkInterval 8 15; mkInterval 30 35; mkInterval 5 10] in
  Intervals c <> []
  /\ Sort insertionSort (Sort insertionSort c) = Sort insertionSort c
  /\ ascending (Intervals (Sort insertionSort c)).
Proof.
  intros c. split; [discriminate|].
  destruct (Sort_twice insertionSort insertionSort_contract c)
    as (H1 & _ & H3).
  - repeat constructor.
  - split; assumption.
Defined.

Lemma Overlapped_of_at_most_one_witness :
  fst (Overlapped insertionSort (build 0 10 [mkInterval 3 7])) = [].
Proof.
  apply (Overlapped_of_at_most_one insertionSort insertionSort_contract).
  simpl. lia.
Defined.

Lemma Overlapped_well_formed_witness :
  Forall well_formed (fst (Overlapped insertionSort scenario)).
Proof.
  apply (Overlapped_well_formed insertionSort insertionSort_contract).
  repeat constructor; unfold well_formed; simpl; lia.
Defined.

Lemma Print_insertion_order_witness :
  Print insertionSort (build 0 40 [mkInterval 30 35; mkInterval 5 10])
  = Print insertionSort (build 0 40 [mkInterval 5 10; mkInterval 30 35]).
Proof.
  apply (Print_insertion_order insertionSort insertionSort_contract 0 40).
  - apply perm_swap.
  - apply distinct_lows_inj. repeat constructor; simpl; intuition discriminate.
Defined.

(** The claim C4 as it is written fails on two intervals with the same
    low bound: [Less] does not tell them apart, the sort leaves each
    insertion order as it is, and the two texts differ from the listing
    of the intervals on. *)
Lemma Print_insertion_order_counterexample :
  let l1 := [mkInterval 1 5; mkInterval 1 3] in
  let l2 := [mkInterval 1 3; mkInterval 1 5] in
  Permutation l1 l2
  /\ Intervals (Sort insertionSort (build 0 10 l1)) = l1
  /\ Intervals (Sort insertionSort (build 0 10 l2)) = l2
  /\ option_map fst (Print insertionSort (build 0 10 l1))
     <> option_map fst (Print insertionSort (build 0 10 l2)).
Proof.
  intros l1 l2. split; [apply perm_swap|].
  split; [reflexivity|]. split; [reflexivity|].
  vm_compute. intros H. discriminate H.
Qed.

Lemma Print_layout_witness :
  exists p,
    Print insertionSort scenario
    = Some (assemble p, Sort insertionSort scenario)
    /\ ordered_parts (code_order p) (assemble p)
    /\ introText p = header_text 0 40
    /\ legend p = legend_text
    /\ axisLegend p = axis_text 0 40 41
    /\ graphPart p
       = (cells (unit_symbol (Intervals scenario)
                   (fst (Overlapped insertionSort scenario))) 36 0
          ++ replicate 4 emptySymbol)%string.
Proof.
  destruct (Print_layout insertionSort insertionSort_contract scenario)
    as (p & H1 & H2 & _ & H4 & H5 & _ & _ & _ & H9 & H10).
  - repeat constructor.
  - unfold in_range, min_int, max_int. simpl. lia.
  - repeat constructor; unfold in_range, min_int, max_int; simpl; lia.
  - repeat constructor; unfold max_int; simpl; lia.
  - exists p. repeat split; assumption.
Defined.

(** The claim C5 as it is written fails on the scenario of section 8: in
    the text that [Print] returns, nothing but a line feed follows the
    graph line, and the axis line stands before it. *)
Lemma Print_layout_counterexample :
  exists p c',
    Print_parts insertionSort scenario = Some (p, c')
    /\ Print insertionSort scenario = Some (assemble p, c')
    /\ ~ ordered_parts (spec_order p) (assemble p).
Proof.
  eexists. eexists. split; [vm_compute; reflexivity|].
  split; [vm_compute; reflexivity|].
  intros H. apply ordered_partsb_complete in H.
  vm_compute in H. discriminate H.
Qed.

(** * Further properties of the walks and of the scan *)

Lemma isAnOverlap_exists x l :
  isAnOverlap x l = true <-> exists o, In o l /\ covers x o = true.
Proof. unfold isAnOverlap. apply existsb_exists. Qed.

Lemma isAnOverlap_app x l1 l2 :
  isAnOverlap x (l1 ++ l2) = isAnOverlap x l1 || isAnOverlap x l2.
Proof. unfold isAnOverlap. apply existsb_app. Qed.

(** ** Sizes *)

Lemma Gaps_loop_length l :
  forall k,
    (List.length (snd (Gaps_loop l k [])) <= List.length l)%nat.
Proof.
  induction l as [|a l IH]; simpl; intros k; [lia|].
  rewrite Gaps_loop_acc. simpl. rewrite length_app.
  specialize (IH (add (High a) 1)).
  destruct (Low a >? k); simpl; lia.
Qed.

Lemma Overlapped_body_length i a e :
  (List.length (list_ (Overlapped_body i a e))
   <= List.length (list_ e) + (if (0 <? i)%nat then 1 else 0))%nat.
Proof.
  unfold Overlapped_body. simpl.
  destruct (0 <? i)%nat; [|lia].
  match goal with |- context [if ?c then _ else _] => destruct c end;
    [rewrite length_app; simpl; lia | lia].
Qed.

Lemma Overlapped_loop_length l :
  forall i e,
    (List.length (list_ (Overlapped_loop i l e))
     <= List.length (list_ e) + List.length l)%nat.
Proof.
  induction l as [|a l IH]; simpl; intros i e; [lia|].
  specialize (IH (S i) (Overlapped_body i a e)).
  pose proof (Overlapped_body_length i a e) as HB.
  destruct (0 <? i)%nat; lia.
Qed.

(** ** Shape of the gaps *)

Lemma Gaps_loop_well_formed l :
  forall k,
    in_range k -> Forall (fun i => in_range (Low i)) l ->
    in_range (fst (Gaps_loop l k []))
    /\ Forall well_formed (snd (Gaps_loop l k [])).
Proof.
  induction l as [|a l IH]; simpl; intros k Hk Hl.
  - split; [exact Hk | constructor].
  - inversion Hl as [|? ? Ha Hl']; subst.
    rewrite Gaps_loop_acc. simpl.
    destruct (IH (add (High a) 1) (wrap_in_range _) Hl') as [Hf Hg].
    split; [exact Hf|].
    apply Forall_app. split; [|exact Hg].
    rewrite Z.gtb_ltb. destruct (Z.ltb_spec k (Low a)); [|constructor].
    repeat constructor. unfold well_formed, in_range in *. simpl.
    rewrite sub_1_small by lia. lia.
Qed.

(** A point at or after the cursor that no interval holds is in a gap of
    the walk, or at or after the final cursor. *)
Lemma Gaps_loop_complete l :
  forall k x,
    Forall gap_safe l -> min_int <= k -> k <= x ->
    coverage x l = 0%nat ->
    isAnOverlap x (snd (Gaps_loop l k [])) = true
    \/ fst (Gaps_loop l k []) <= x.
Proof.
  induction l as [|a l IH]; simpl; intros k x Hs Hk Hx Hc.
  - now right.
  - inversion Hs as [|? ? [Hlo [Hwf Hhi]] Hs']; subst.
    rewrite coverage_cons in Hc.
    destruct (covers x a) eqn:E; [discriminate|].
    simpl in Hc. apply covers_false_iff in E.
    rewrite Gaps_loop_acc. simpl. rewrite isAnOverlap_app.
    rewrite add_1_small by lia.
    destruct E as [Hbefore|Hafter].
    + left. apply orb_true_iff. left.
      rewrite Z.gtb_ltb. destruct (Z.ltb_spec k (Low a)); [|lia].
      rewrite sub_1_small by lia.
      unfold isAnOverlap, inBetweenInclusive. simpl.
      rewrite orb_false_r. apply andb_true_iff. rewrite !Z.leb_le. lia.
    + assert (Hk1 : min_int <= High a + 1) by lia.
      assert (Hx1 : High a + 1 <= x) by lia.
      destruct (IH (High a + 1) x Hs' Hk1 Hx1 Hc) as [H|H].
      * left. apply orb_true_iff. now right.
      * now right.
Qed.

(** ** Where the overlaps lie *)

Lemma Overlapped_loop_inside (Q : Interval -> Prop) l :
  forall i e,
    (forall a o, In a l -> inside o a -> Q o) ->
    Forall Q (list_ e) ->
    Forall Q (list_ (Overlapped_loop i l e)).
Proof.
  induction l as [|a l IH]; simpl; intros i e HQ He; [exact He|].
  apply IH; [intros b o Hb; apply HQ; now right|].
  unfold Overlapped_body. simpl.
  destruct (0 <? i)%nat; [|exact He].
  match goal with |- context [if ?c then _ else _] => destruct c end;
    [|exact He].
  apply Forall_app. split; [exact He|].
  repeat constructor. apply (HQ a); [now left|].
  unfold inside, max, min. simpl. rewrite Z.gtb_ltb.
  destruct (Z.ltb_spec (lastMinLow e) (Low a));
    destruct (Z.ltb_spec (High a) (lastMaxHigh e)); lia.
Qed.

(** ** What the overlaps cover *)

Lemma min_Zmin a b : min a b = Z.min a b.
Proof. unfold min. destruct (Z.ltb_spec a b); lia. Qed.

Lemma max_Zmax a b : max a b = Z.max a b.
Proof. unfold max. rewrite Z.gtb_ltb. destruct (Z.ltb_spec b a); lia. Qed.

(** The first interval: nothing is emitted, and the envelope becomes
    the interval. *)
Lemma Overlapped_body_first a :
  int_bounds a ->
  Overlapped_body 0 a Overlapped_init = mkEnvelope [] (Low a) (High a).
Proof.
  unfold int_bounds, in_range, Overlapped_body, Overlapped_init. simpl.
  intros [HL HH]. rewrite Z.gtb_ltb. f_equal.
  - destruct (Z.ltb_spec (Low a) max_int); lia.
  - destruct (Z.ltb_spec min_int (High a)); lia.
Qed.

(** A later interval that starts at or after the low end of the
    envelope: the four tests come to [Low <= lastMaxHigh]. *)
Lemma Overlapped_body_next i a e :
  well_formed a ->
  lastMinLow e <= Low a ->
  lastMinLow e <= lastMaxHigh e ->
  Overlapped_body (S i) a e
  = mkEnvelope
      (if Low a <=? lastMaxHigh e
       then list_ e ++ [mkInterval (Low a) (Z.min (High a) (lastMaxHigh e))]
       else list_ e)
      (lastMinLow e)
      (Z.max (High a) (lastMaxHigh e)).
Proof.
  unfold well_formed. intros Hw HL He.
  unfold Overlapped_body. change (0 <? S i)%nat with true. cbv iota.
  rewrite min_Zmin, max_Zmax. f_equal.
  - replace (Z.max (Low a) (lastMinLow e)) with (Low a) by lia.
    unfold inBetweenInclusive.
    destruct (Z.leb_spec (Low a) (lastMaxHigh e)) as [H|H].
    + destruct (Z.leb_spec (lastMinLow e) (Low a)); [|lia].
      simpl. now rewrite orb_true_r.
    + destruct (Z.leb_spec (Low a) (lastMinLow e));
        destruct (Z.leb_spec (lastMinLow e) (High a));
        destruct (Z.leb_spec (lastMinLow e) (Low a));
        destruct (Z.leb_spec (lastMaxHigh e) (High a));
        destruct (Z.leb_spec (High a) (lastMaxHigh e));
        simpl; try reflexivity; lia.
  - destruct (Z.ltb_spec (Low a) (lastMinLow e)); lia.
  - rewrite Z.gtb_ltb.
    destruct (Z.ltb_spec (lastMaxHigh e) (High a)); lia.
Qed.

(** The invariant of the walk over ascending well-formed intervals: a
    point is in an emitted overlap exactly when two of the intervals
    seen so far hold it. *)
Lemma Overlapped_loop_exact x l :
  forall P i e,
    ascending (P ++ l) ->
    Forall well_formed (P ++ l) ->
    envelope_of P e ->
    (isAnOverlap x (list_ e) = true <-> (2 <= coverage x P)%nat) ->
    (isAnOverlap x (list_ (Overlapped_loop (S i) l e)) = true
     <-> (2 <= coverage x (P ++ l))%nat).
Proof.
  induction l as [|a l IH]; intros P i e Hasc Hwf Henv Hlist.
  - simpl. now rewrite app_nil_r.
  - simpl Overlapped_loop.
    assert (Hsplit : P ++ a :: l = (P ++ [a]) ++ l)
      by (now rewrite <- app_assoc).
    destruct Henv as (Hspan & (jh & Hjh & Ejh) & (jl & Hjl & Ejl)).
    assert (Hwa : well_formed a).
    { rewrite Forall_forall in Hwf. apply Hwf, in_elt. }
    assert (HwP : forall p, In p P -> well_formed p).
    { intros p Hp. rewrite Forall_forall in Hwf. apply Hwf.
      apply in_or_app. now left. }
    assert (HLa : lastMinLow e <= Low a).
    { rewrite Ejl. eapply ascending_app_le; eassumption. }
    assert (Hord : lastMinLow e <= lastMaxHigh e).
    { destruct (Hspan jl Hjl). specialize (HwP jl Hjl).
      unfold well_formed in HwP. lia. }
    rewrite (Overlapped_body_next i a e Hwa HLa Hord).
    pose proof Hasc as Hasc0.
    rewrite Hsplit in Hasc, Hwf |- *.
    apply IH; try assumption.
    + (* the envelope of the longer prefix *)
      unfold envelope_of. cbn [lastMinLow lastMaxHigh].
      split; [|split].
      * intros p Hp. apply in_app_or in Hp. destruct Hp as [Hp|[<-|[]]].
        -- destruct (Hspan p Hp). lia.
        -- lia.
      * destruct (Z.le_gt_cases (High a) (lastMaxHigh e)).
        -- exists jh. split; [apply in_or_app; now left | lia].
        -- exists a. split; [apply in_elt | lia].
      * exists jl. split; [apply in_or_app; now left | exact Ejl].
    + (* the points of the emitted overlaps *)
      cbn [list_]. rewrite coverage_app, coverage_cons.
      change (coverage x []) with 0%nat.
      assert (Hnew :
                (Low a <=? lastMaxHigh e)
                && covers x (mkInterval (Low a)
                               (Z.min (High a) (lastMaxHigh e))) = true
                <-> covers x a = true /\ (1 <= coverage x P)%nat).
      { rewrite andb_true_iff, Z.leb_le, !covers_iff, coverage_pos_iff.
        simpl. split.
        - intros [Hle Hx]. split; [lia|].
          exists jh. split; [exact Hjh|]. apply covers_iff.
          assert (Low jh <= Low a)
            by (eapply ascending_app_le; [exact Hasc0|exact Hjh]).
          lia.
        - intros [Hx (p & Hp & Hc)]. apply covers_iff in Hc.
          destruct (Hspan p Hp). lia. }
      destruct (Low a <=? lastMaxHigh e) eqn:Etest.
      * rewrite isAnOverlap_app, orb_true_iff, Hlist.
        unfold isAnOverlap at 1. simpl existsb. rewrite orb_false_r.
        change (inBetweenInclusive x (Low a) (Z.min (High a) (lastMaxHigh e)))
          with (covers x (mkInterval (Low a)
                            (Z.min (High a) (lastMaxHigh e)))).
        simpl in Hnew. rewrite Hnew.
        destruct (covers x a); split.
        -- intros [H|[_ H]]; lia.
        -- intros H. right. split; [reflexivity | lia].
        -- intros [H|[H _]]; [lia | discriminate].
        -- intros H. left. lia.
      * rewrite Hlist. simpl in Hnew.
        destruct (covers x a); [|lia].
        split; [lia|]. intros H.
        destruct (le_lt_dec 2 (coverage x P)); [assumption|].
        assert (false = true) by (apply Hnew; split; [reflexivity|lia]).
        discriminate.
Qed.

(** ** The drawing loops *)

Lemma draw_empty_index i cv : in_range (index (draw_empty i cv)).
Proof.
  unfold draw_empty.
  destruct (Z.rem (add (index cv) 1) 10 =? 0); apply wrap_in_range.
Qed.

Lemma draw_full_index ov i cv : in_range (index (draw_full ov i cv)).
Proof.
  unfold draw_full.
  destruct (Z.rem (add (index cv) 1) blockSize =? 0); apply wrap_in_range.
Qed.

Lemma Print_body_index ov i a cv cv' :
  in_range (index cv) ->
  Print_body ov i a cv = Some cv' ->
  in_range (index cv').
Proof.
  unfold Print_body, for_le, for_lt. intros Hcv.
  set (cv1 := mkCanvas _ _ _ _).
  set (cv2 := for_iter _ _ draw_empty cv1).
  assert (H2 : in_range (index cv2)).
  { apply (for_iter_preserves (fun s => in_range (index s)));
      [intros; apply draw_empty_index | exact Hcv]. }
  destruct (index cv2 <=? High a).
  - destruct (High a =? max_int); [discriminate|].
    intros H. inversion H; subst.
    apply (for_iter_preserves (fun s => in_range (index s)));
      [intros; apply draw_full_index | exact H2].
  - intros H. inversion H; subst. exact H2.
Qed.

Lemma Print_body_hangs ov i a cv :
  in_range (index cv) -> High a = max_int -> Print_body ov i a cv = None.
Proof.
  unfold Print_body, for_le, for_lt. intros Hcv Ha.
  set (cv1 := mkCanvas _ _ _ _).
  set (cv2 := for_iter _ _ draw_empty cv1).
  assert (H2 : in_range (index cv2)).
  { apply (for_iter_preserves (fun s => in_range (index s)));
      [intros; apply draw_empty_index | exact Hcv]. }
  rewrite Ha. unfold in_range in H2.
  destruct (Z.leb_spec (index cv2) max_int); [|lia].
  now rewrite Z.eqb_refl.
Qed.

Lemma Print_loop_hangs ov l :
  forall i cv,
    in_range (index cv) ->
    Exists (fun a => High a = max_int) l ->
    Print_loop ov i l cv = None.
Proof.
  induction l as [|a l IH]; simpl; intros i cv Hcv Hex.
  - inversion Hex.
  - destruct (Print_body ov i a cv) as [cv'|] eqn:E; [|reflexivity].
    apply IH; [eapply Print_body_index; eassumption|].
    inversion Hex as [? ? Ha | ? ? Hl]; subst; [|exact Hl].
    rewrite (Print_body_hangs ov i a cv Hcv Ha) in E. discriminate.
Qed.

Section Further.

Variable srt : list Interval -> list Interval.
Hypothesis srt_ok : sort_contract srt.

Lemma srt_nil : srt [] = [].
Proof.
  apply Permutation_nil. apply (sort_perm srt srt_ok).
Qed.

(** X1.  On a collection without intervals, [Gaps()] returns the whole
    domain as its only gap when [minLow < maxHigh], and nothing
    otherwise: a domain of one point, [minLow = maxHigh], has no gap. *)
Theorem Gaps_of_empty minLow maxHigh :
  fst (Gaps srt (NewIntervals minLow maxHigh))
  = if minLow <? maxHigh then [mkInterval minLow maxHigh] else [].
Proof.
  unfold Gaps, Sort, NewIntervals. simpl. rewrite srt_nil. simpl.
  now destruct (minLow <? maxHigh).
Qed.

(** X2.  No method loses, adds or changes an interval, [Add] apart, nor
    moves the bounds of the domain: after [Sort], [Gaps], [Overlapped]
    and [Print] the items are a rearrangement of the items before. *)
Theorem queries_keep_items c :
  (Permutation (Intervals c) (Intervals (Sort srt c))
   /\ MinLow (Sort srt c) = MinLow c /\ MaxHigh (Sort srt c) = MaxHigh c)
  /\ (Permutation (Intervals c) (Intervals (snd (Gaps srt c)))
      /\ MinLow (snd (Gaps srt c)) = MinLow c
      /\ MaxHigh (snd (Gaps srt c)) = MaxHigh c)
  /\ (Permutation (Intervals c) (Intervals (snd (Overlapped srt c)))
      /\ MinLow (snd (Overlapped srt c)) = MinLow c
      /\ MaxHigh (snd (Overlapped srt c)) = MaxHigh c)
  /\ (forall text c',
        Print srt c = Some (text, c') ->
        Permutation (Intervals c) (Intervals c')
        /\ MinLow c' = MinLow c /\ MaxHigh c' = MaxHigh c).
Proof.
  pose proof (Sort_perm srt srt_ok c) as HP.
  rewrite Gaps_state, Overlapped_state.
  repeat split; try exact HP.
  - apply Print_state in H. now subst.
  - apply Print_state in H. now subst.
  - apply Print_state in H. now subst.
Qed.

(** X3.  [Gaps()] returns at most one gap more than there are
    intervals. *)
Theorem Gaps_count c :
  (List.length (fst (Gaps srt c)) <= List.length (Intervals c) + 1)%nat.
Proof.
  unfold Gaps.
  pose proof (Gaps_loop_length (Intervals (Sort srt c)) (MinLow (Sort srt c)))
    as HL.
  rewrite <- (Permutation_length (Sort_perm srt srt_ok c)) in HL.
  destruct (Gaps_loop (Intervals (Sort srt c)) (MinLow (Sort srt c)) [])
    as [lastHigh gaps].
  simpl in *.
  destruct (lastHigh <? MaxHigh c); [rewrite length_app; simpl|]; lia.
Qed.

(** X4.  [Overlapped()] returns at most one overlap per interval after
    the first. *)
Theorem Overlapped_count c :
  (List.length (fst (Overlapped srt c)) <= List.length (Intervals c) - 1)%nat.
Proof.
  change (fst (Overlapped srt c))
    with (list_ (Overlapped_loop 0 (Intervals (Sort srt c))
                   Overlapped_init)).
  rewrite (Permutation_length (Sort_perm srt srt_ok c)).
  destruct (Intervals (Sort srt c)) as [|a l]; [simpl; lia|].
  simpl Overlapped_loop.
  pose proof (Overlapped_loop_length l 1
                (Overlapped_body 0 a Overlapped_init)) as HL.
  simpl in *. lia.
Qed.

(** X5.  Whatever the intervals (malformed, overlapping or nested), when
    the lower bound of the domain and the low bounds of the intervals
    are values of [int], every gap that [Gaps()] returns has
    [low <= high]. *)
Theorem Gaps_well_formed c :
  in_range (MinLow c) ->
  Forall (fun i => in_range (Low i)) (Intervals c) ->
  Forall well_formed (fst (Gaps srt c)).
Proof.
  intros Hk Hl. unfold Gaps.
  assert (Hl' : Forall (fun i => in_range (Low i)) (Intervals (Sort srt c)))
    by (eapply Permutation_Forall; [apply (Sort_perm srt srt_ok)|exact Hl]).
  destruct (Gaps_loop_well_formed (Intervals (Sort srt c)) (MinLow c) Hk Hl')
    as [_ Hg].
  change (MinLow (Sort srt c)) with (MinLow c).
  destruct (Gaps_loop (Intervals (Sort srt c)) (MinLow c) [])
    as [lastHigh gaps].
  simpl in *.
  destruct (Z.ltb_spec lastHigh (MaxHigh c)); [|exact Hg].
  apply Forall_app. split; [exact Hg|].
  repeat constructor. unfold well_formed. simpl. lia.
Qed.

(** X6.  Every interval that [Overlapped()] returns lies inside an
    interval of the collection. *)
Theorem Overlapped_inside_item c :
  Forall (fun o => exists i, In i (Intervals c) /\ inside o i)
    (fst (Overlapped srt c)).
Proof.
  change (fst (Overlapped srt c))
    with (list_ (Overlapped_loop 0 (Intervals (Sort srt c))
                   Overlapped_init)).
  apply Overlapped_loop_inside; [|constructor].
  intros a o Ha Ho. exists a. split; [|exact Ho].
  eapply Permutation_in;
    [apply Permutation_sym, (Sort_perm srt srt_ok) | exact Ha].
Qed.

(** X7.  On a collection built through the interface whose intervals are
    well-formed with bounds in [int], a point lies in an interval
    returned by [Overlapped()] exactly when at least two intervals of
    the collection hold it. *)
Theorem Overlapped_exact c x :
  reachable srt c ->
  Forall well_formed (Intervals c) ->
  Forall int_bounds (Intervals c) ->
  isAnOverlap x (fst (Overlapped srt c)) = true
  <-> (2 <= coverage x (Intervals c))%nat.
Proof.
  intros Hr Hwf Hb.
  pose proof (Sort_perm srt srt_ok c) as HP.
  rewrite (coverage_perm x _ _ HP).
  assert (Hasc : ascending (Intervals (Sort srt c))).
  { apply Sort_ascending; [assumption|].
    now apply (reachable_flag_ok srt srt_ok). }
  assert (Hwf' : Forall well_formed (Intervals (Sort srt c)))
    by (eapply Permutation_Forall; eassumption).
  assert (Hb' : Forall int_bounds (Intervals (Sort srt c)))
    by (eapply Permutation_Forall; eassumption).
  change (fst (Overlapped srt c))
    with (list_ (Overlapped_loop 0 (Intervals (Sort srt c))
                   Overlapped_init)).
  destruct (Intervals (Sort srt c)) as [|a l].
  - simpl. split; [discriminate | cbv; lia].
  - simpl Overlapped_loop. inversion Hb'; subst.
    rewrite Overlapped_body_first by assumption.
    apply (Overlapped_loop_exact x l [a] 0%nat); try assumption.
    + unfold envelope_of. simpl. split; [|split].
      * intros p [<-|[]]. lia.
      * exists a. split; [now left | reflexivity].
      * exists a. split; [now left | reflexivity].
    + simpl. rewrite coverage_cons. change (coverage x []) with 0%nat.
      split; [discriminate | destruct (covers x a); lia].
Qed.

(** X8.  Under the bounds of C1 but for any intervals (they may overlap
    or nest), every point of the domain that no interval holds lies in
    a gap returned by [Gaps()]; as in C1, nothing is said of [maxHigh]
    when the cursor of the walk ends exactly on it. *)
Theorem Gaps_hold_uncovered c x :
  min_int <= MinLow c ->
  Forall gap_safe (Intervals c) ->
  MinLow c <= x <= MaxHigh c ->
  coverage x (Intervals c) = 0%nat ->
  ~ (x = MaxHigh c /\ Gaps_cursor srt c = MaxHigh c) ->
  (1 <= coverage x (fst (Gaps srt c)))%nat.
Proof.
  intros Hmin Hsafe Hx Hc Hslip.
  pose proof (Sort_perm srt srt_ok c) as HP.
  rewrite (coverage_perm x _ _ HP) in Hc.
  assert (Hsafe' : Forall gap_safe (Intervals (Sort srt c)))
    by (eapply Permutation_Forall; eassumption).
  pose proof (Gaps_loop_complete (Intervals (Sort srt c)) (MinLow c) x
                Hsafe' Hmin (proj1 Hx) Hc) as HG.
  apply coverage_pos_iff. apply isAnOverlap_exists.
  unfold Gaps, Gaps_cursor in *.
  change (MinLow (Sort srt c)) with (MinLow c) in *.
  change (MaxHigh (Sort srt c)) with (MaxHigh c) in *.
  destruct (Gaps_loop (Intervals (Sort srt c)) (MinLow c) [])
    as [lastHigh gaps].
  simpl in *.
  destruct (Z.ltb_spec lastHigh (MaxHigh c)) as [Htrail|Hnone].
  - rewrite isAnOverlap_app. apply orb_true_iff.
    destruct HG as [HG|HG]; [now left | right].
    unfold isAnOverlap, inBetweenInclusive. simpl.
    rewrite orb_false_r. apply andb_true_iff. rewrite !Z.leb_le. lia.
  - destruct HG as [HG|HG]; [exact HG|].
    exfalso. apply Hslip. lia.
Qed.

(** X10.  Sorting rearranges the answer of the membership scan and
    nothing more: the intervals found for a value before and after
    [Sort] are the same up to their order, and there are as many of them
    as intervals that hold the value. *)
Theorem Find_after_Sort c value :
  Permutation (fst (FindIntervalsForValue c value))
    (fst (FindIntervalsForValue (Sort srt c) value))
  /\ List.length (fst (FindIntervalsForValue (Sort srt c) value))
     = coverage value (Intervals c).
Proof.
  unfold FindIntervalsForValue. simpl fst.
  rewrite !FindIntervalsForValue_loop_filter. simpl app.
  pose proof (Sort_perm srt srt_ok c) as HP.
  split.
  - now apply filter_perm.
  - unfold coverage. symmetry. apply Permutation_length.
    now apply filter_perm.
Qed.

(** X11.  On a collection without intervals [Print()] returns a text
    whose two listings of intervals and overlaps are empty, whose
    listing of gaps is that of X1, and whose graph is [maxHigh - minLow]
    empty symbols without a separator (none when [maxHigh <= minLow]). *)
Theorem Print_of_empty minLow maxHigh :
  exists p,
    Print srt (NewIntervals minLow maxHigh)
    = Some (assemble p, Sort srt (NewIntervals minLow maxHigh))
    /\ intervalsPart p = (nl ++ " • Intervals: ")%string
    /\ overlapText p = (nl ++ " • Overlapped: ")%string
    /\ gapsText p
       = listing (nl ++ " • Gaps: ")
           (if minLow <? maxHigh then [mkInterval minLow maxHigh] else [])
    /\ graphPart p = replicate (Z.to_nat (maxHigh - minLow)) emptySymbol.
Proof.
  assert (HS : Sort srt (NewIntervals minLow maxHigh)
               = mkIntervals [] minLow maxHigh true).
  { unfold Sort, NewIntervals. simpl. now rewrite srt_nil. }
  change (Print srt (NewIntervals minLow maxHigh))
    with (Print srt (Sort srt (NewIntervals minLow maxHigh))).
  rewrite HS.
  eexists. split; [reflexivity|].
  cbn [intervalsPart overlapText gapsText graphPart].
  split; [reflexivity|]. split; [reflexivity|]. split; [reflexivity|].
  unfold for_lt. cbn [index graph MinLow MaxHigh Sort].
  now rewrite for_iter_append.
Qed.

(** X12.  When the lower bound of the domain is a value of [int] and
    some interval ends on [math.MaxInt64], [Print()] does not return:
    the drawing loop [for i := index; i <= intvl.High; i++] has no
    exit. *)
Theorem Print_hangs c :
  in_range (MinLow c) ->
  Exists (fun a => High a = max_int) (Intervals c) ->
  Print srt c = None.
Proof.
  intros Hk Hex.
  assert (Hex' : Exists (fun a => High a = max_int) (Intervals (Sort srt c)))
    by (eapply Permutation_Exists; [apply (Sort_perm srt srt_ok)|exact Hex]).
  unfold Print, Print_parts.
  change (Overlapped srt (Sort srt c))
    with (fst (Overlapped srt c), Sort srt c).
  cbv beta iota.
  rewrite Print_loop_hangs; [reflexivity | exact Hk | exact Hex'].
Qed.

End Further.

(** X9.  [Add] then [FindIntervalsForValue]: the interval just added
    comes last in the answer, for the values it holds and for no other,
    and the rest of the answer is what it was before. *)
Theorem Add_then_Find c itvl value :
  fst (FindIntervalsForValue (Add c itvl) value)
  = fst (FindIntervalsForValue c value)
    ++ (if (Low itvl <=? value) && (value <=? High itvl) then [itvl] else []).
Proof.
  unfold FindIntervalsForValue, Add. simpl.
  rewrite !FindIntervalsForValue_loop_filter. simpl.
  rewrite filter_app. simpl. unfold covers at 2.
  now destruct ((Low itvl <=? value) && (value <=? High itvl)).
Qed.

(** ** Order of the overlaps *)

Lemma ascending_snoc l n :
  ascending l -> Forall (fun o => Low o <= Low n) l -> ascending (l ++ [n]).
Proof.
  unfold ascending.
  induction l as [|a l IH]; simpl; intros Hl Hn.
  - repeat constructor.
  - apply StronglySorted_inv in Hl. destruct Hl as [Hl Ha].
    inversion Hn; subst.
    constructor; [now apply IH|].
    apply Forall_app. split; [exact Ha | repeat constructor; assumption].
Qed.

(** Over ascending well-formed intervals the overlaps start where the
    intervals that emit them start, hence in ascending order. *)
Lemma Overlapped_loop_ascending l :
  forall P i e,
    ascending (P ++ l) ->
    Forall well_formed (P ++ l) ->
    envelope_of P e ->
    ascending (list_ e) ->
    Forall (fun o => exists p, In p P /\ Low o = Low p) (list_ e) ->
    ascending (list_ (Overlapped_loop (S i) l e)).
Proof.
  induction l as [|a l IH]; intros P i e Hasc Hwf Henv Hle Hfrom.
  - exact Hle.
  - simpl Overlapped_loop.
    assert (Hsplit : P ++ a :: l = (P ++ [a]) ++ l)
      by (now rewrite <- app_assoc).
    pose proof Henv as (Hspan & (jh & Hjh & Ejh) & (jl & Hjl & Ejl)).
    assert (Hwa : well_formed a).
    { rewrite Forall_forall in Hwf. apply Hwf, in_elt. }
    assert (HLa : lastMinLow e <= Low a).
    { rewrite Ejl. eapply ascending_app_le; eassumption. }
    assert (Hord : lastMinLow e <= lastMaxHigh e).
    { destruct (Hspan jl Hjl) as [_ H].
      assert (well_formed jl).
      { rewrite Forall_forall in Hwf. apply Hwf, in_or_app. now left. }
      unfold well_formed in *. lia. }
    rewrite (Overlapped_body_next i a e Hwa HLa Hord).
    pose proof Hasc as Hasc0.
    rewrite Hsplit in Hasc, Hwf.
    apply (IH (P ++ [a])); try assumption.
    + unfold envelope_of. cbn [lastMinLow lastMaxHigh].
      split; [|split].
      * intros p Hp. apply in_app_or in Hp. destruct Hp as [Hp|[<-|[]]].
        -- destruct (Hspan p Hp). lia.
        -- lia.
      * destruct (Z.le_gt_cases (High a) (lastMaxHigh e)).
        -- exists jh. split; [apply in_or_app; now left | lia].
        -- exists a. split; [apply in_elt | lia].
      * exists jl. split; [apply in_or_app; now left | exact Ejl].
    + cbn [list_]. destruct (Low a <=? lastMaxHigh e); [|exact Hle].
      apply ascending_snoc; [exact Hle|].
      eapply Forall_impl; [|exact Hfrom].
      intros o (p & Hp & ->). simpl.
      eapply ascending_app_le; eassumption.
    + cbn [list_].
      assert (Hfrom' : Forall (fun o => exists p, In p (P ++ [a])
                                                  /\ Low o = Low p)
                         (list_ e)).
      { eapply Forall_impl; [|exact Hfrom].
        intros o (p & Hp & E). exists p.
        split; [apply in_or_app; now left | exact E]. }
      destruct (Low a <=? lastMaxHigh e); [|exact Hfrom'].
      apply Forall_app. split; [exact Hfrom'|].
      repeat constructor. exists a. split; [apply in_elt | reflexivity].
Qed.

Section Order.

Variable srt : list Interval -> list Interval.
Hypothesis srt_ok : sort_contract srt.

(** X13.  On a collection of two well-formed intervals with bounds in
    [int], added in either order, [Overlapped()] returns their
    intersection [[max of the lows, min of the highs]] when they share a
    point, and nothing when they do not. *)
Theorem Overlapped_of_two minLow maxHigh a b :
  well_formed a -> well_formed b -> int_bounds a -> int_bounds b ->
  fst (Overlapped srt (build minLow maxHigh [a; b]))
  = if Z.max (Low a) (Low b) <=? Z.min (High a) (High b)
    then [mkInterval (Z.max (Low a) (Low b)) (Z.min (High a) (High b))]
    else [].
Proof.
  intros Hwa Hwb Hba Hbb.
  change (fst (Overlapped srt (build minLow maxHigh [a; b])))
    with (list_ (Overlapped_loop 0
                   (Intervals (Sort srt (build minLow maxHigh [a; b])))
                   Overlapped_init)).
  rewrite Sort_build. cbn [Intervals].
  pose proof (sort_ascending srt srt_ok [a; b]) as Hasc.
  pose proof (sort_perm srt srt_ok [a; b]) as HP.
  unfold well_formed in *.
  apply Permutation_length_2_inv in HP. destruct HP as [E|E]; rewrite E in *;
    apply ascending_inv in Hasc; destruct Hasc as [_ Hle];
    inversion Hle as [|? ? Hlow _]; subst; unfold low_le in Hlow;
    simpl Overlapped_loop;
    rewrite Overlapped_body_first by assumption;
    rewrite Overlapped_body_next
      by (unfold well_formed; simpl; assumption);
    cbn [list_ lastMaxHigh lastMinLow app].
  - replace (Z.max (Low a) (Low b)) with (Low b) by lia.
    destruct (Z.leb_spec (Low b) (High a));
      destruct (Z.leb_spec (Low b) (Z.min (High a) (High b)));
      try lia; [|reflexivity].
    now rewrite Z.min_comm.
  - replace (Z.max (Low a) (Low b)) with (Low a) by lia.
    destruct (Z.leb_spec (Low a) (High b));
      destruct (Z.leb_spec (Low a) (Z.min (High a) (High b)));
      try lia; reflexivity.
Qed.

(** X14.  On a collection built through the interface whose intervals are
    well-formed with bounds in [int], the overlaps that [Overlapped()]
    returns come in ascending order of their low bounds. *)
Theorem Overlapped_ascending c :
  reachable srt c ->
  Forall well_formed (Intervals c) ->
  Forall int_bounds (Intervals c) ->
  ascending (fst (Overlapped srt c)).
Proof.
  intros Hr Hwf Hb.
  pose proof (Sort_perm srt srt_ok c) as HP.
  assert (Hasc : ascending (Intervals (Sort srt c))).
  { apply Sort_ascending; [assumption|].
    now apply (reachable_flag_ok srt srt_ok). }
  assert (Hwf' : Forall well_formed (Intervals (Sort srt c)))
    by (eapply Permutation_Forall; eassumption).
  assert (Hb' : Forall int_bounds (Intervals (Sort srt c)))
    by (eapply Permutation_Forall; eassumption).
  change (fst (Overlapped srt c))
    with (list_ (Overlapped_loop 0 (Intervals (Sort srt c))
                   Overlapped_init)).
  destruct (Intervals (Sort srt c)) as [|a l].
  - constructor.
  - simpl Overlapped_loop. inversion Hb'; subst.
    rewrite Overlapped_body_first by assumption.
    apply (Overlapped_loop_ascending l [a] 0%nat); try assumption.
    + unfold envelope_of. simpl. split; [|split].
      * intros p [<-|[]]. lia.
      * exists a. split; [now left | reflexivity].
      * exists a. split; [now left | reflexivity].
    + constructor.
    + constructor.
Qed.

End Order.

(** ** Instances of the further properties *)

Lemma scenario_reachable : reachable insertionSort scenario.
Proof. repeat constructor. Qed.

Lemma scenario_well_formed : Forall well_formed (Intervals scenario).
Proof. repeat constructor; unfold well_formed; simpl; lia. Qed.

Lemma scenario_int_bounds : Forall int_bounds (Intervals scenario).
Proof.
  repeat constructor; unfold in_range, min_int, max_int; simpl; lia.
Qed.

Lemma Gaps_of_empty_witness :
  fst (Gaps insertionSort (NewIntervals 0 40)) = [mkInterval 0 40].
Proof. exact (Gaps_of_empty insertionSort insertionSort_contract 0 40). Defined.

Lemma queries_keep_items_witness :
  Permutation (Intervals scenario)
    (Intervals (snd (Gaps insertionSort scenario))).
Proof.
  exact (proj1 (proj1 (proj2
           (queries_keep_items insertionSort insertionSort_contract
              scenario)))).
Defined.

Lemma Gaps_count_witness :
  (List.length (fst (Gaps insertionSort scenario)) <= 3 + 1)%nat.
Proof. exact (Gaps_count insertionSort insertionSort_contract scenario). Defined.

Lemma Overlapped_count_witness :
  (List.length (fst (Overlapped insertionSort scenario)) <= 3 - 1)%nat.
Proof.
  exact (Overlapped_count insertionSort insertionSort_contract scenario).
Defined.

Lemma Gaps_well_formed_witness :
  Forall well_formed
    (fst (Gaps insertionSort (build 0 10 [mkInterval 5 2; mkInterval 1 8]))).
Proof.
  apply (Gaps_well_formed insertionSort insertionSort_contract).
  - unfold in_range, min_int, max_int. simpl. lia.
  - repeat constructor; unfold min_int, max_int; simpl; lia.
Defined.

Lemma Overlapped_inside_item_witness :
  Forall (fun o => exists i, In i (Intervals scenario) /\ inside o i)
    (fst (Overlapped insertionSort scenario)).
Proof.
  exact (Overlapped_inside_item insertionSort insertionSort_contract scenario).
Defined.

Lemma Overlapped_exact_witness :
  isAnOverlap 9 (fst (Overlapped insertionSort scenario)) = true
  <-> (2 <= coverage 9 (Intervals scenario))%nat.
Proof.
  apply (Overlapped_exact insertionSort insertionSort_contract scenario 9).
  - exact scenario_reachable.
  - exact scenario_well_formed.
  - exact scenario_int_bounds.
Defined.

Lemma Gaps_hold_uncovered_witness :
  let c := build 0 20 [mkInterval 0 10; mkInterval 2 3] in
  coverage 15 (Intervals c) = 0%nat
  /\ (1 <= coverage 15 (fst (Gaps insertionSort c)))%nat.
Proof.
  intros c. split; [reflexivity|].
  apply (Gaps_hold_uncovered insertionSort insertionSort_contract c 15).
  - unfold min_int. simpl. lia.
  - repeat constructor; unfold min_int, max_int; simpl; lia.
  - simpl. lia.
  - reflexivity.
  - intros [H _]. vm_compute in H. discriminate H.
Defined.

Lemma Find_after_Sort_witness :
  let c := build 0 40 [mkInterval 8 15; mkInterval 5 10] in
  Permutation (fst (FindIntervalsForValue c 9))
    (fst (FindIntervalsForValue (Sort insertionSort c) 9)).
Proof.
  intros c.
  exact (proj1 (Find_after_Sort insertionSort insertionSort_contract c 9)).
Defined.

Lemma Print_of_empty_witness :
  exists p,
    Print insertionSort (NewIntervals 0 3)
    = Some (assemble p, Sort insertionSort (NewIntervals 0 3))
    /\ graphPart p = replicate 3 emptySymbol.
Proof.
  destruct (Print_of_empty insertionSort insertionSort_contract 0 3)
    as (p & H1 & _ & _ & _ & H5).
  exists p. split; [exact H1 | exact H5].
Defined.

Lemma Print_hangs_witness :
  Print insertionSort (Add NewIntervalsDefault (mkInterval 0 max_int)) = None.
Proof.
  apply (Print_hangs insertionSort insertionSort_contract).
  - unfold in_range, min_int, max_int, NewIntervalsDefault, defaultMinLow.
    simpl. lia.
  - constructor. reflexivity.
Defined.

Lemma Overlapped_of_two_witness :
  fst (Overlapped insertionSort
         (build 0 40 [mkInterval 8 15; mkInterval 5 10]))
  = [mkInterval 8 10].
Proof.
  apply (Overlapped_of_two insertionSort insertionSort_contract 0 40
           (mkInterval 8 15) (mkInterval 5 10));
    unfold well_formed, int_bounds, in_range, min_int, max_int; simpl; lia.
Defined.

Lemma Overlapped_ascending_witness :
  ascending (fst (Overlapped insertionSort scenario)).
Proof.
  apply (Overlapped_ascending insertionSort insertionSort_contract).
  - exact scenario_reachable.
  - exact scenario_well_formed.
  - exact scenario_int_bounds.
Defined.

